(** * bert_decryption: the word-substitution code of [main.py]

    A shallow embedding of [DatasetReader], [CryptAlgo] and [RandomCode]
    and the properties of vocabulary construction, code assignment,
    persistence and [encrypt]/[decrypt].

    Conventions of the embedding:
    - a Python [str] is a [string]; a character is its code point (below 256);
    - a [dict] used as a lookup table is a [gmap]; the [Counter], whose
      iteration order decides [most_common], is an insertion-ordered
      association list;
    - exceptions are values of [exception]; code that touches the process
      (the module-level generator of [random], the files) runs in the
      monad [M] over a [world];
    - the Python library ([random], [pickle]) is not part of the repository:
      it enters through the interfaces [Random] and [Pickle]. *)

From Stdlib Require Import Ascii String NArith.
From stdpp Require Import base option list sorting gmap strings.

Open Scope string_scope.
Open Scope list_scope.
Open Scope nat_scope.
Open Scope stdpp_scope.

(** ** Python strings *)

(** [str.isspace] on one character: the code points below 256 that Python
    treats as whitespace (tab to carriage return, the four separators
    0x1c-0x1f, space, NEL and the no-break space). *)
Definition isspace (c : ascii) : bool :=
  let n := N_of_ascii c in
  ((9 <=? n) && (n <=? 13) || (28 <=? n) && (n <=? 32) || (n =? 133) || (n =? 160))%N.

(** The word being scanned, when it ends: nothing was scanned or one token. *)
Definition flush (cur : string) : list string :=
  match cur with "" => [] | _ => [cur] end.

(** [str.split()] without arguments: maximal runs of non-whitespace
    characters, left to right; [cur] is the run being scanned. *)
Fixpoint split_go (cur : string) (s : string) : list string :=
  match s with
  | "" => flush cur
  | String c s' =>
      if isspace c then flush cur ++ split_go "" s'
      else split_go (cur +:+ String c "") s'
  end.

Definition split (s : string) : list string := split_go "" s.

(** [sep.join(l)]. *)
Fixpoint join (sep : string) (l : list string) : string :=
  match l with
  | [] => ""
  | x :: l' => match l' with [] => x | _ :: _ => x +:+ sep +:+ join sep l' end
  end.

(** The characters below 256 at which [str.splitlines] ends a line: line
    feed, vertical tab, form feed, carriage return, the separators 0x1c-0x1e
    and NEL. *)
Definition is_linebreak (c : ascii) : bool :=
  let n := N_of_ascii c in
  ((10 <=? n) && (n <=? 13) || (28 <=? n) && (n <=? 30) || (n =? 133))%N.

(** [str.splitlines()]: the lines without their ends; a carriage return and
    the line feed after it end one line ([after_cr] remembers the carriage
    return), and a last line without characters is not a line. *)
Fixpoint splitlines_go (after_cr : bool) (cur : string) (s : string) : list string :=
  match s with
  | "" => match cur with "" => [] | _ => [cur] end
  | String c s' =>
      if after_cr && bool_decide (c = "010"%char) then splitlines_go false cur s'
      else if is_linebreak c
      then cur :: splitlines_go (bool_decide (c = "013"%char)) "" s'
      else splitlines_go false (cur +:+ String c "") s'
  end.

Definition splitlines (s : string) : list string := splitlines_go false "" s.

(** A lowercase letter, and a string of lowercase letters. *)
Definition is_lower (c : ascii) : bool :=
  let n := N_of_ascii c in ((97 <=? n) && (n <=? 122))%N.

Fixpoint all_lower (s : string) : bool :=
  match s with
  | "" => true
  | String c s' => is_lower c && all_lower s'
  end.

(** A one-letter lowercase string. *)
Definition lower_letter (s : string) : Prop :=
  ∃ c, s = String c "" ∧ is_lower c = true.

(** Whether a string begins, or ends, with a whitespace character. *)
Definition leading_space (s : string) : bool :=
  match s with
  | "" => false
  | String c _ => isspace c
  end.

Fixpoint trailing_space (s : string) : bool :=
  match s with
  | "" => false
  | String c s' => match s' with "" => isspace c | _ => trailing_space s' end
  end.

(** Nothing but whitespace, as in the empty string. *)
Fixpoint all_space (s : string) : bool :=
  match s with
  | "" => true
  | String c s' => isspace c && all_space s'
  end.

(** A token: a non-empty string without whitespace. *)
Fixpoint has_space (s : string) : bool :=
  match s with
  | "" => false
  | String c s' => isspace c || has_space s'
  end.

Definition is_token (s : string) : Prop := s ≠ "" ∧ has_space s = false.

(** Whitespace runs collapsed to one space, leading and trailing whitespace
    removed, character by character. [pending] records that whitespace was
    skipped after some output. *)
Fixpoint normalize_go (started pending : bool) (s : string) : string :=
  match s with
  | "" => ""
  | String c s' =>
      if isspace c then normalize_go started started s'
      else if pending then String " " (String c (normalize_go true false s'))
      else String c (normalize_go true false s')
  end.

Definition normalize (s : string) : string := normalize_go false false s.


(** ** Exceptions *)

Inductive exception : Set :=
  | AssertionError
  | ValueError
  | IndexError
  | FileNotFoundError
  | UnpicklingError
  | NotImplementedError.

Inductive result (A : Type) : Type :=
  | Ok (a : A)
  | Raise (e : exception).
Arguments Ok {A} a.
Arguments Raise {A} e.

(** ** The [random] library *)

(** What the program uses of a [random.Random] object: seeding, and the
    primitive [_randbelow n], which draws below [n] and advances the state. *)
Class Random := {
  gen : Type;
  seed : nat → gen;
  _randbelow : nat → gen → nat * gen;
  _randbelow_lt n g : 0 < n → (_randbelow n g).1 < n;
}.

(** [x[i], x[j] = x[j], x[i]]: both reads, then both writes; an index outside
    the list raises [IndexError]. *)
Definition swap {A} (x : list A) (i j : nat) : result (list A) :=
  match x !! j, x !! i with
  | Some xj, Some xi => Ok (<[j := xi]> (<[i := xj]> x))
  | _, _ => Raise IndexError
  end.

Section random.
Context {rnd : Random}.

(** [for i in reversed(range(1, i + 1)): j = randbelow(i + 1); swap] *)
Fixpoint shuffle_from {A} (i : nat) (x : list A) (g : gen) : result (list A) * gen :=
  match i with
  | 0 => (Ok x, g)
  | S i' =>
      let '(j, g') := _randbelow (S i) g in
      match swap x i j with
      | Ok x' => shuffle_from i' x' g'
      | Raise e => (Raise e, g')
      end
  end.

(** [Random.shuffle(x)] *)
Definition shuffle {A} (x : list A) (g : gen) : result (list A) * gen :=
  shuffle_from (length x - 1) x g.

(** [Random.randint(a, b)] *)
Definition randint (a b : nat) (g : gen) : nat * gen :=
  let '(r, g') := _randbelow (b + 1 - a) g in (a + r, g').
End random.

(** ** [DatasetReader] *)

Module DatasetReader.
(** The object after [__init__]: the lines of the corpus file. *)
Record t := mk { text_data : list string }.

(** [__init__(filepath)], where [texts] gives for each text file what
    [f.read()] returns: a missing file raises [FileNotFoundError]. *)
Definition __init__ (texts : gmap string string) (filepath : string) : result t :=
  match texts !! filepath with
  | None => Raise FileNotFoundError
  | Some content => Ok (mk (splitlines content))
  end.

Definition iterate_sentence (self : t) : list string := text_data self.

(** [for sentence in ...: for word in sentence.split(): yield word] *)
Definition iterate_word (self : t) : list string :=
  sentence ← iterate_sentence self; split sentence.
End DatasetReader.

(** ** [collections.Counter] *)

Module Counter.
(** Keys in insertion order, as a [dict] keeps them. *)
Definition t := list (string * nat).

(** [c[word]], zero for a missing key. *)
Fixpoint getitem (c : t) (word : string) : nat :=
  match c with
  | [] => 0
  | (k, n) :: c' => if decide (k = word) then n else getitem c' word
  end.

(** [c[word] = n]: in place for a key that is there, at the end otherwise. *)
Fixpoint setitem (c : t) (word : string) (n : nat) : t :=
  match c with
  | [] => [(word, n)]
  | (k, m) :: c' =>
      if decide (k = word) then (k, n) :: c' else (k, m) :: setitem c' word n
  end.

(** [c[word] += 1] *)
Definition incr (c : t) (word : string) : t :=
  setitem c word (getitem c word + 1).

(** Insertion into a list sorted by descending count, before the first
    element whose count is not larger. *)
Fixpoint insert_desc (x : string * nat) (l : list (string * nat)) :=
  match l with
  | [] => [x]
  | y :: l' => if decide (y.2 ≤ x.2) then x :: y :: l' else y :: insert_desc x l'
  end.

(** [sorted(items, key=itemgetter(1), reverse=True)]: a stable sort. *)
Fixpoint sorted_desc (l : list (string * nat)) : list (string * nat) :=
  match l with
  | [] => []
  | x :: l' => insert_desc x (sorted_desc l')
  end.

(** [c.most_common(n)] is [heapq.nlargest(n, c.items(), key=itemgetter(1))],
    which is [sorted(c.items(), key=itemgetter(1), reverse=True)[:n]]. *)
Definition most_common (c : t) (n : nat) : list (string * nat) :=
  take n (sorted_desc c).
End Counter.

(** [zip] of the starred list of pairs: the iterator yields the two columns
    (the words, the counts), and nothing at all when there is no pair. *)
Definition zip_star (pairs : list (string * nat)) : option (list string * list nat) :=
  match pairs with
  | [] => None
  | _ :: _ => Some (pairs.*1, pairs.*2)
  end.

(** [a, b = columns]: [ValueError] unless there are exactly two values. *)
Definition unpack2 (columns : option (list string * list nat))
    : result (list string * list nat) :=
  match columns with
  | Some ab => Ok ab
  | None => Raise ValueError
  end.

(** ** Persisted state *)

(** The dictionary that [_save_to_pickle_file] pickles. *)
Record save_dict := SaveDict {
  sd_vocab : Counter.t;
  sd_vocab_words : list string;
  sd_vocab_counts : list nat;
  sd_map_word_to_code : gmap string string;
  sd_map_code_to_word : gmap string string;
}.

(** [pickle]: a file content is a [blob]; a blob that is not the pickle of
    such a dictionary does not load. *)
Class Pickle := {
  blob : Type;
  dumps : save_dict → blob;
  loads : blob → option save_dict;
  loads_dumps d : loads (dumps d) = Some d;
}.

(** ** The process: the generator of the [random] module and the files *)

Section world.
Context {rnd : Random} {pkl : Pickle}.

Record world := World {
  random : gen;
  files : gmap string blob;
}.

Definition M (A : Type) : Type := world → result A * world.

#[export] Instance M_ret : MRet M := λ A a w, (Ok a, w).
#[export] Instance M_bind : MBind M := λ A B f m w,
  match m w with
  | (Ok a, w') => f a w'
  | (Raise e, w') => (Raise e, w')
  end.

Definition raise {A} (e : exception) : M A := λ w, (Raise e, w).

Definition lift {A} (r : result A) : M A := λ w, (r, w).

(** [random.shuffle(x)], on the generator of the module. *)
Definition random_shuffle {A} (x : list A) : M (list A) := λ w,
  let '(r, g') := shuffle x (random w) in (r, World g' (files w)).

(** [with open(path, "rb") as f: pickle.load(f)] *)
Definition pickle_load (path : string) : M save_dict := λ w,
  match files w !! path with
  | None => (Raise FileNotFoundError, w)
  | Some b =>
      match loads b with
      | None => (Raise UnpicklingError, w)
      | Some d => (Ok d, w)
      end
  end.

(** [with open(path, "wb") as f: pickle.dump(d, f)] *)
Definition pickle_dump (d : save_dict) (path : string) : M () := λ w,
  (Ok (), World (random w) (<[path := dumps d]> (files w))).
End world.

(** ** [CryptAlgo] *)

Module CryptAlgo.
Section CryptAlgo.
Context {rnd : Random} {pkl : Pickle}.

(** The methods a subclass overrides. *)
Class Methods (Self : Type) := {
  _init_from_dataset_reader : Self → DatasetReader.t → M Self;
  _init_from_pickle_file : Self → string → M Self;
  _save_to_pickle_file : Self → string → M ();
  encrypt : Self → string → result string;
  decrypt : Self → string → result string;
}.

(** The methods of [CryptAlgo] itself. *)
Definition abstract (Self : Type) : Methods Self := {|
  _init_from_dataset_reader _ _ := raise NotImplementedError;
  _init_from_pickle_file _ _ := raise NotImplementedError;
  _save_to_pickle_file _ _ := raise NotImplementedError;
  encrypt _ _ := Raise NotImplementedError;
  decrypt _ _ := Raise NotImplementedError;
|}.

Definition __init__ `{Methods Self} (self : Self) (use_dataset_reader : bool)
    (dataset_reader : option DatasetReader.t) (save_pickle_file : option string)
    : M Self :=
  if use_dataset_reader then
    match dataset_reader with
    | None => raise AssertionError
    | Some reader =>
        self ← _init_from_dataset_reader self reader;
        match save_pickle_file with
        | Some path => _save_to_pickle_file self path ;; mret self
        | None => mret self
        end
    end
  else
    match dataset_reader, save_pickle_file with
    | None, Some path => _init_from_pickle_file self path
    | _, _ => raise AssertionError
    end.
End CryptAlgo.
End CryptAlgo.

(** ** [RandomCode] *)

Module RandomCode.
Section RandomCode.
Context {rnd : Random} {pkl : Pickle}.

Definition NUM_CODE_LENGTH : nat := 8.
Definition LOWER_CASE_ALPHABET_SIZE : nat := 26.
Definition MAX_VOCAB_SIZE : nat := 1000.

Record t := mk {
  random_generator : gen;
  characters_choice : list string;
  vocab : Counter.t;
  vocab_words : list string;
  vocab_counts : list nat;
  map_word_to_code : gmap string string;
  map_code_to_word : gmap string string;
}.

(** The draws of [_generate_code], from the generator of the instance. *)
Fixpoint draw_codes (n : nat) (g : gen) : list nat * gen :=
  match n with
  | 0 => ([], g)
  | S n' =>
      let '(r, g') := randint 0 (LOWER_CASE_ALPHABET_SIZE - 1) g in
      let '(rs, g'') := draw_codes n' g' in
      (r :: rs, g'')
  end.

(** The instance with its generator advanced, and the code; [None] stands
    for the [IndexError] of [characters_choice[i]]. *)
Definition _generate_code (self : t) : t * option string :=
  let '(random_codes, g) := draw_codes NUM_CODE_LENGTH (random_generator self) in
  (mk g (characters_choice self) (vocab self) (vocab_words self)
      (vocab_counts self) (map_word_to_code self) (map_code_to_word self),
   join "" <$> mapM (λ i, characters_choice self !! i) random_codes).

(** The loop over [vocab_words] that fills both dictionaries. *)
Fixpoint assign_codes (words codeWords : list string) (counter : nat)
    (word_to_code code_to_word : gmap string string)
    : result (gmap string string * gmap string string) :=
  match words with
  | [] => Ok (word_to_code, code_to_word)
  | word :: words' =>
      match codeWords !! counter with
      | None => Raise IndexError
      | Some code =>
          assign_codes words' codeWords (S counter)
            (<[word := code]> word_to_code) (<[code := word]> code_to_word)
      end
  end.

Definition _init_from_dataset_reader (self : t) (dataset_reader : DatasetReader.t)
    : M t :=
  let vocab := foldl Counter.incr (vocab self) (DatasetReader.iterate_word dataset_reader) in
  let pair_of_words_and_counts := Counter.most_common vocab MAX_VOCAB_SIZE in
  '(vocab_words, vocab_counts) ← lift (unpack2 (zip_star pair_of_words_and_counts));
  let counter := 0 in
  codeWords ← random_shuffle vocab_words;
  '(word_to_code, code_to_word) ←
    lift (assign_codes vocab_words codeWords counter
            (map_word_to_code self) (map_code_to_word self));
  mret (mk (random_generator self) (characters_choice self) vocab
          vocab_words vocab_counts word_to_code code_to_word).

Definition _init_from_pickle_file (self : t) (save_pickle_file : string) : M t :=
  load_dict ← pickle_load save_pickle_file;
  mret (mk (random_generator self) (characters_choice self)
          (sd_vocab load_dict) (sd_vocab_words load_dict)
          (sd_vocab_counts load_dict) (sd_map_word_to_code load_dict)
          (sd_map_code_to_word load_dict)).

Definition _save_to_pickle_file (self : t) (save_pickle_file : string) : M () :=
  let save_dict :=
    SaveDict (vocab self) (vocab_words self) (vocab_counts self)
      (map_word_to_code self) (map_code_to_word self) in
  pickle_dump save_dict save_pickle_file.

Definition encrypt (self : t) (sentence : string) : string :=
  let encrypted_words_list :=
    foldl (λ acc word,
             match map_word_to_code self !! word with
             | None => acc
             | Some code => acc ++ [code]
             end) [] (split sentence) in
  join " " encrypted_words_list.

(** The loop of [decrypt]; the [assert] raises [AssertionError]. *)
Fixpoint decrypt_loop (self : t) (codes : list string) (acc : list string)
    : result (list string) :=
  match codes with
  | [] => Ok acc
  | code :: codes' =>
      match map_code_to_word self !! code with
      | None => Raise AssertionError
      | Some word => decrypt_loop self codes' (acc ++ [word])
      end
  end.

Definition decrypt (self : t) (sentence : string) : result string :=
  match decrypt_loop self (split sentence) [] with
  | Ok decrypted_words_list => Ok (join " " decrypted_words_list)
  | Raise e => Raise e
  end.

#[export] Instance methods : CryptAlgo.Methods t := {|
  CryptAlgo._init_from_dataset_reader := _init_from_dataset_reader;
  CryptAlgo._init_from_pickle_file := _init_from_pickle_file;
  CryptAlgo._save_to_pickle_file := _save_to_pickle_file;
  CryptAlgo.encrypt self sentence := Ok (encrypt self sentence);
  CryptAlgo.decrypt := decrypt;
|}.

(** The attributes that [__init__] sets before it calls [CryptAlgo.__init__]:
    the generator seeded with 42, the alphabet, an empty vocabulary and
    empty dictionaries. *)
Definition fresh : t :=
  mk (seed 42)
     ((λ i, String (ascii_of_nat (i + nat_of_ascii "a")) "") <$> seq 0 LOWER_CASE_ALPHABET_SIZE)
     [] [] [] ∅ ∅.

Definition __init__ (use_dataset_reader : bool)
    (dataset_reader : option DatasetReader.t) (save_pickle_file : option string)
    : M t :=
  CryptAlgo.__init__ fresh use_dataset_reader dataset_reader save_pickle_file.
End RandomCode.
End RandomCode.

(** ** The driver *)

Section main.
Context {rnd : Random} {pkl : Pickle}.

(** [print(a, b)]: the arguments with a space between them. *)
Definition print2 (a b : string) : string := a +:+ " " +:+ b.

(** The three lines that the driver prints for an instance, and the
    exception of [decrypt] after the first two. *)
Definition report (random_code : RandomCode.t) : list string * result () :=
  let sentence := "I went to eat an apple" in
  let encrypted := RandomCode.encrypt random_code sentence in
  let printed := [print2 "Sentence: " sentence; print2 "Encrypted: " encrypted] in
  match RandomCode.decrypt random_code encrypted with
  | Raise e => (printed, Raise e)
  | Ok decrypted => (printed ++ [print2 "Decrypted: " decrypted], Ok ())
  end.

(** The body under [if __name__ == '__main__']: the lines printed, the
    exception that ended the run if one did, and the process afterwards.
    [texts] gives for each text file what [f.read()] returns. *)
Definition main (texts : gmap string string) (w : world)
    : list string * result () * world :=
  match DatasetReader.__init__ texts "test_dataset.txt" with
  | Raise e => ([], Raise e, w)
  | Ok dataset_reader =>
      match RandomCode.__init__ true (Some dataset_reader) (Some "random_code.pk") w with
      | (Raise e, w1) => ([], Raise e, w1)
      | (Ok random_code, w1) =>
          match report random_code with
          | (printed, Raise e) => (printed, Raise e, w1)
          | (printed, Ok _) =>
              let printed :=
                printed ++ ["Should expect decrypted to be same as sentence";
                            string_of_list_ascii (replicate 88 "~"%char)] in
              match RandomCode.__init__ false None (Some "random_code.pk") w1 with
              | (Raise e, w2) => (printed, Raise e, w2)
              | (Ok random_code, w2) =>
                  match report random_code with
                  | (printed', Raise e) => (printed ++ printed', Raise e, w2)
                  | (printed', Ok _) =>
                      (printed ++ printed'
                         ++ ["Should be the save as previous output"], Ok (), w2)
                  end
              end
          end
      end
  end.
End main.

(** ** Notions used in the statements *)

(** [tokens.index(word)]: the position of the first occurrence. *)
Fixpoint first_index (word : string) (tokens : list string) : option nat :=
  match tokens with
  | [] => None
  | t :: tokens' =>
      if decide (t = word) then Some 0 else S <$> first_index word tokens'
  end.

(** The distinct tokens, in the order of their first occurrences. *)
Fixpoint first_seen (tokens : list string) : list string :=
  match tokens with
  | [] => []
  | t :: tokens' => t :: filter (λ u, u ≠ t) (first_seen tokens')
  end.

(** How often [word] occurs among [tokens]. *)
Definition occurrences (word : string) (tokens : list string) : nat :=
  length (filter (λ t, t = word) tokens).

(** Descending by count. *)
Definition count_ge : relation (string * nat) := λ x y, y.2 ≤ x.2.

(** The pairs that construction selects from a token stream. *)
Definition vocabulary_of (tokens : list string) : list (string * nat) :=
  Counter.most_common (foldl Counter.incr [] tokens) RandomCode.MAX_VOCAB_SIZE.

Section notions.
Context {rnd : Random} {pkl : Pickle}.
Implicit Types (self : RandomCode.t) (w : world).

(** The codes of the tokens that have one, in the order of the tokens. *)
Definition known_codes self (tokens : list string) : list string :=
  omap (λ word, RandomCode.map_word_to_code self !! word) tokens.

(** The tokens that have a code, in their order. *)
Definition known_words self (tokens : list string) : list string :=
  filter (λ word, is_Some (RandomCode.map_word_to_code self !! word)) tokens.

(** The dictionary that [_save_to_pickle_file] writes for an instance. *)
Definition snapshot self : save_dict :=
  SaveDict (RandomCode.vocab self) (RandomCode.vocab_words self)
    (RandomCode.vocab_counts self) (RandomCode.map_word_to_code self)
    (RandomCode.map_code_to_word self).

(** The list that [shuffle] leaves. *)
Definition shuffled {A} (x : list A) (g : gen) : list A :=
  match (shuffle x g).1 with
  | Ok x' => x'
  | Raise _ => x
  end.

(** The instance that construction from a token stream builds, in closed
    form, when the generator of the module is in state [g]. *)
Definition built (g : gen) (tokens : list string) : RandomCode.t :=
  let pairs := vocabulary_of tokens in
  let codeWords := shuffled pairs.*1 g in
  RandomCode.mk (seed 42) (RandomCode.characters_choice RandomCode.fresh)
    (foldl Counter.incr [] tokens) pairs.*1 pairs.*2
    (list_to_map (zip pairs.*1 codeWords))
    (list_to_map (zip codeWords pairs.*1)).

(** Loading the file at [path] in [w] succeeds, and the instance it gives
    has the five persisted fields of [self] and encrypts and decrypts every
    sentence as [self] does. *)
Definition restored self (path : string) w : Prop :=
  ∃ loaded,
    RandomCode.__init__ false None (Some path) w = (Ok loaded, w)
    ∧ RandomCode.vocab loaded = RandomCode.vocab self
    ∧ RandomCode.vocab_words loaded = RandomCode.vocab_words self
    ∧ RandomCode.vocab_counts loaded = RandomCode.vocab_counts self
    ∧ RandomCode.map_word_to_code loaded = RandomCode.map_word_to_code self
    ∧ RandomCode.map_code_to_word loaded = RandomCode.map_code_to_word self
    ∧ ∀ sentence,
        RandomCode.encrypt loaded sentence = RandomCode.encrypt self sentence
        ∧ RandomCode.decrypt loaded sentence = RandomCode.decrypt self sentence.
End notions.
Arguments built : simpl never.

(** ** A generator and a pickle to run the program with *)

(** A generator whose state is a counter: the draw below [n] is the state
    modulo [n]. *)
Definition counter_random : Random := {|
  gen := nat;
  seed a := a;
  _randbelow n g := (g mod n, S g);
  _randbelow_lt n g Hn := Nat.mod_upper_bound g n (proj2 (Nat.neq_0_lt_0 n) Hn);
|}.

(** A pickle whose blobs are the dictionary itself, or garbage. *)
Definition plain_pickle : Pickle := {|
  blob := option save_dict;
  dumps d := Some d;
  loads b := b;
  loads_dumps d := eq_refl;
|}.

(** A process without files, the generator of the module in state [g]. *)
Definition world0 (g : nat) : @world counter_random plain_pickle :=
  @World counter_random plain_pickle g ∅.

(** The corpus of the driver's example, and one with ties. *)
Definition apple_corpus : DatasetReader.t :=
  DatasetReader.mk ["I went to eat an apple"].

Definition tie_corpus : DatasetReader.t :=
  DatasetReader.mk ["b a c a"; "  c d "].

(** Construction from a corpus in [world0 g], saving at [path] when there
    is one. *)
Definition run_corpus (reader : DatasetReader.t) (path : option string) (g : nat)
    : result (@RandomCode.t counter_random) * @world counter_random plain_pickle :=
  @RandomCode.__init__ counter_random plain_pickle true (Some reader) path (world0 g).

(** The instance of a run, [fresh] when the run raised. *)
Definition instance_of (r : result (@RandomCode.t counter_random))
    : @RandomCode.t counter_random :=
  match r with
  | Ok self => self
  | Raise _ => @RandomCode.fresh counter_random
  end.

Definition apple_code (g : nat) : @RandomCode.t counter_random :=
  instance_of (run_corpus apple_corpus None g).1.

Definition tie_code : @RandomCode.t counter_random :=
  instance_of (run_corpus tie_corpus None 0).1.

(** A second construction from the corpus of the driver, in the process that
    the first one leaves. *)
Definition apple_again : @RandomCode.t counter_random :=
  instance_of
    (@RandomCode.__init__ counter_random plain_pickle true (Some apple_corpus) None
       (run_corpus apple_corpus None 0).2).1.

(** A corpus of one distinct token, and the instance built from it. *)
Definition single_corpus : DatasetReader.t :=
  DatasetReader.mk ["a a"; " a"].

Definition single_code : @RandomCode.t counter_random :=
  instance_of (run_corpus single_corpus None 0).1.

(** The text files of a run of the driver: a corpus of two lines. *)
Definition driver_texts : gmap string string :=
  {["test_dataset.txt" := "I went to eat an apple" +:+ String "010" "an apple a day"]}.

(** * Properties *)

(** ** Strings: [split], [join] and [normalize] *)

Section strings.
Implicit Types (s cur w sep : string) (c : ascii) (ws : list string).

Example split_ex : split "  I went	to eat " = ["I"; "went"; "to"; "eat"].
Proof. reflexivity. Qed.

Example normalize_ex : normalize "  I went	to eat " = "I went to eat".
Proof. reflexivity. Qed.

Lemma app_cons c s1 s2 : String c s1 +:+ s2 = String c (s1 +:+ s2).
Proof. reflexivity. Qed.

Lemma app_empty_l s : "" +:+ s = s.
Proof. reflexivity. Qed.

Lemma app_empty_r s : s +:+ "" = s.
Proof. induction s as [|c s IH]; [done|]. by rewrite app_cons, IH. Qed.

Lemma app_assoc' s1 s2 s3 : (s1 +:+ s2) +:+ s3 = s1 +:+ (s2 +:+ s3).
Proof. induction s1 as [|c s1 IH]; [done|]. by rewrite !app_cons, IH. Qed.

Lemma app_snoc_ne cur c : cur +:+ String c "" ≠ "".
Proof. by destruct cur. Qed.

Lemma has_space_app s1 s2 : has_space (s1 +:+ s2) = has_space s1 || has_space s2.
Proof.
  induction s1 as [|c s1 IH]; [done|].
  rewrite app_cons. simpl. by rewrite IH, orb_assoc.
Qed.

Lemma flush_ne cur : cur ≠ "" → flush cur = [cur].
Proof. by destruct cur. Qed.

Lemma split_go_ne cur s : cur ≠ "" → split_go cur s ≠ [].
Proof.
  revert cur. induction s as [|c s IH]; intros cur Hcur; simpl.
  - by rewrite flush_ne.
  - destruct (isspace c); [by rewrite flush_ne|]. apply IH, app_snoc_ne.
Qed.

Lemma split_all_space s : all_space s = true → split s = [].
Proof.
  unfold split. induction s as [|c s IH]; [done|]. simpl.
  intros [-> Hs]%andb_true_iff. by apply IH.
Qed.

(** Every element that [split] returns is a token. *)
Lemma split_go_tokens cur s :
  has_space cur = false → Forall is_token (split_go cur s).
Proof.
  revert cur. induction s as [|c s IH]; intros cur Hcur; simpl.
  - destruct cur; [constructor|]. by repeat constructor.
  - destruct (isspace c) eqn:Hc.
    + apply Forall_app. split; [|by apply IH].
      destruct cur; [constructor|]. by repeat constructor.
    + apply IH. rewrite has_space_app, Hcur. simpl. by rewrite Hc.
Qed.

Lemma split_tokens s : Forall is_token (split s).
Proof. by apply split_go_tokens. Qed.

Lemma split_go_app cur w s :
  has_space w = false → split_go cur (w +:+ s) = split_go (cur +:+ w) s.
Proof.
  revert cur. induction w as [|c w IH]; intros cur Hw.
  - by rewrite app_empty_r.
  - simpl in Hw. apply orb_false_iff in Hw as [Hc Hw].
    rewrite app_cons. simpl. rewrite Hc, IH by done.
    by rewrite app_assoc'.
Qed.

(** Splitting what [join] put together with single spaces gives the
    tokens back. *)
Lemma split_join ws : Forall is_token ws → split (join " " ws) = ws.
Proof.
  unfold split. induction 1 as [|w ws [Hne Hw] Hws IH]; [done|].
  simpl. destruct ws as [|w' ws].
  - pose proof (split_go_app "" w "" Hw) as E. rewrite app_empty_r in E.
    rewrite E. simpl. by rewrite flush_ne.
  - rewrite split_go_app by done. rewrite app_cons.
    change (split_go ("" +:+ w) (String " " ("" +:+ join " " (w' :: ws))))
      with (flush w ++ split_go "" (join " " (w' :: ws))).
    by rewrite flush_ne, IH.
Qed.

Lemma join_cons sep w ws :
  join sep (w :: ws) = match ws with [] => w | _ => w +:+ sep +:+ join sep ws end.
Proof. by destruct ws. Qed.

(** [normalize] and [split], in a word and after a word. *)
Lemma normalize_go_split s :
  (∀ cur, cur ≠ "" → join " " (split_go cur s) = cur +:+ normalize_go true false s)
  ∧ normalize_go true true s =
      match split_go "" s with [] => "" | _ => " " +:+ join " " (split_go "" s) end.
Proof.
  induction s as [|c s [IHw IHs]]; (split; [intros cur Hcur|]); simpl.
  - by rewrite flush_ne, app_empty_r.
  - done.
  - destruct (isspace c).
    + rewrite flush_ne by done. simpl. rewrite IHs.
      destruct (split_go "" s); [by rewrite app_empty_r|done].
    + rewrite IHw by apply app_snoc_ne. by rewrite app_assoc'.
  - destruct (isspace c); [done|]. rewrite app_empty_l.
    pose proof (split_go_ne (String c "") s) as Hne.
    rewrite IHw by done.
    destruct (split_go (String c "") s); [by destruct Hne|done].
Qed.

(** [" ".join(s.split())] is [s] with whitespace runs collapsed to one
    space and the whitespace at both ends removed. *)
Lemma join_split_normalize s : join " " (split s) = normalize s.
Proof.
  unfold split, normalize. induction s as [|c s IH]; [done|]. simpl.
  destruct (isspace c); [done|].
  by rewrite app_empty_l, (proj1 (normalize_go_split s)).
Qed.
End strings.

(** ** [encrypt] and [decrypt] on any instance *)

Section crypt.
Context {rnd : Random} {pkl : Pickle}.
Implicit Types (self : RandomCode.t) (sentence : string).

Lemma known_codes_cons self t ts :
  known_codes self (t :: ts) =
    match RandomCode.map_word_to_code self !! t with
    | Some code => code :: known_codes self ts
    | None => known_codes self ts
    end.
Proof. unfold known_codes. csimpl. by destruct (_ !! t). Qed.

Lemma encrypt_loop self tokens acc :
  foldl (λ acc word,
           match RandomCode.map_word_to_code self !! word with
           | None => acc
           | Some code => acc ++ [code]
           end) acc tokens
  = acc ++ known_codes self tokens.
Proof.
  revert acc. induction tokens as [|word tokens IH]; intros acc; simpl.
  - by rewrite app_nil_r.
  - rewrite IH. unfold known_codes. simpl.
    destruct (RandomCode.map_word_to_code self !! word); [|done].
    by rewrite <-app_assoc.
Qed.

Lemma encrypt_eq self sentence :
  RandomCode.encrypt self sentence = join " " (known_codes self (split sentence)).
Proof. unfold RandomCode.encrypt. by rewrite encrypt_loop. Qed.

Lemma decrypt_loop_eq self codes acc :
  RandomCode.decrypt_loop self codes acc =
    match mapM (λ code, RandomCode.map_code_to_word self !! code) codes with
    | Some words => Ok (acc ++ words)
    | None => Raise AssertionError
    end.
Proof.
  revert acc. induction codes as [|code codes IH]; intros acc; simpl.
  - by rewrite app_nil_r.
  - destruct (RandomCode.map_code_to_word self !! code) as [word|]; [|done].
    rewrite IH. simpl.
    destruct (mapM _ codes); simpl; [|done]. by rewrite <-app_assoc.
Qed.

Lemma decrypt_eq self sentence :
  RandomCode.decrypt self sentence =
    match mapM (λ code, RandomCode.map_code_to_word self !! code) (split sentence) with
    | Some words => Ok (join " " words)
    | None => Raise AssertionError
    end.
Proof.
  unfold RandomCode.decrypt. rewrite decrypt_loop_eq.
  by destruct (mapM _ _).
Qed.
End crypt.

(** ** The frequency table *)

Section counter.
Implicit Types (c : Counter.t) (word w x : string) (tokens : list string).

Lemma filter_id {A} (P : A → Prop) `{∀ a, Decision (P a)} (l : list A) :
  Forall P l → filter P l = l.
Proof.
  induction 1 as [|a l Ha _ IH]; [done|].
  rewrite filter_cons. by rewrite decide_True, IH.
Qed.

Lemma filter_ext_in {A} (P Q : A → Prop) `{∀ a, Decision (P a)}
    `{∀ a, Decision (Q a)} (l : list A) :
  (∀ a, a ∈ l → P a ↔ Q a) → filter P l = filter Q l.
Proof.
  induction l as [|a l IH]; intros HPQ; [done|].
  rewrite !filter_cons, IH by (intros; apply HPQ; by right).
  destruct (decide (P a)) as [HP|HP], (decide (Q a)) as [HQ|HQ]; try done.
  - destruct HQ. by apply (HPQ a); [left|].
  - destruct HP. by apply (HPQ a); [left|].
Qed.

Lemma getitem_setitem c x n w :
  Counter.getitem (Counter.setitem c x n) w =
    if decide (x = w) then n else Counter.getitem c w.
Proof.
  induction c as [|[k m] c IH]; simpl.
  - by destruct (decide (x = w)).
  - destruct (decide (k = x)) as [->|Hkx]; simpl.
    + by destruct (decide (x = w)).
    + destruct (decide (k = w)) as [->|Hkw]; [|done].
      by rewrite decide_False by done.
Qed.

Lemma keys_setitem c x n :
  (Counter.setitem c x n).*1 = if decide (x ∈ c.*1) then c.*1 else c.*1 ++ [x].
Proof.
  induction c as [|[k m] c IH]; csimpl; [done|].
  - destruct (decide (k = x)) as [->|Hkx]; csimpl.
    + rewrite decide_True; [done|]. by left.
    + rewrite IH. destruct (decide (x ∈ c.*1)) as [Hin|Hin].
      * rewrite decide_True; [done|]. by right.
      * rewrite decide_False; [done|].
        intros [?|?]%elem_of_cons; by simplify_eq.
Qed.

Lemma getitem_incr c x w :
  Counter.getitem (Counter.incr c x) w =
    Counter.getitem c w + (if decide (x = w) then 1 else 0).
Proof.
  unfold Counter.incr. rewrite getitem_setitem.
  destruct (decide (x = w)) as [->|]; lia.
Qed.

(** The count of a word is the number of its occurrences. *)
Lemma getitem_foldl tokens c w :
  Counter.getitem (foldl Counter.incr c tokens) w =
    Counter.getitem c w + occurrences w tokens.
Proof.
  revert c. induction tokens as [|x tokens IH]; intros c; simpl.
  - unfold occurrences. simpl. lia.
  - rewrite IH, getitem_incr. unfold occurrences. rewrite filter_cons.
    destruct (decide (x = w)); simpl; lia.
Qed.

(** The keys are the distinct tokens, in the order of first occurrence. *)
Lemma keys_foldl tokens c :
  (foldl Counter.incr c tokens).*1 =
    c.*1 ++ filter (λ u, u ∉ c.*1) (first_seen tokens).
Proof.
  revert c. induction tokens as [|x tokens IH]; intros c; simpl.
  - by rewrite app_nil_r.
  - rewrite IH. unfold Counter.incr. rewrite keys_setitem, filter_cons.
    destruct (decide (x ∈ c.*1)) as [Hin|Hin].
    + rewrite decide_False by (intros Hn; by apply Hn). f_equal.
      rewrite list_filter_filter. apply filter_ext_in.
      intros a _. split; [|tauto]. intros Ha. split; [done|]. by intros ->.
    + rewrite decide_True by done. rewrite <-app_assoc. f_equal. simpl. f_equal.
      rewrite list_filter_filter. apply filter_ext_in.
      intros a _. rewrite elem_of_app, list_elem_of_singleton. tauto.
Qed.

Lemma keys_count tokens : (foldl Counter.incr [] tokens).*1 = first_seen tokens.
Proof.
  rewrite keys_foldl. simpl. apply filter_id, Forall_forall.
  intros a _. apply not_elem_of_nil.
Qed.

Lemma elem_of_first_seen w tokens : w ∈ first_seen tokens ↔ w ∈ tokens.
Proof.
  induction tokens as [|x tokens IH]; simpl; [done|].
  rewrite !elem_of_cons, list_elem_of_filter, IH.
  destruct (decide (w = x)); tauto.
Qed.

Lemma first_seen_NoDup tokens : NoDup (first_seen tokens).
Proof.
  induction tokens as [|x tokens IH]; simpl; constructor.
  - rewrite list_elem_of_filter. by intros [? _].
  - by apply NoDup_filter.
Qed.

Lemma first_seen_nil tokens : first_seen tokens = [] ↔ tokens = [].
Proof. by destruct tokens. Qed.

Lemma getitem_elem_of c w n : NoDup c.*1 → (w, n) ∈ c → Counter.getitem c w = n.
Proof.
  induction c as [|[k m] c IH]; simpl; intros Hnd Hin.
  - by apply elem_of_nil in Hin.
  - apply NoDup_cons in Hnd as [Hk Hnd].
    apply elem_of_cons in Hin as [Heq|Hin].
    + simplify_eq. by rewrite decide_True.
    + rewrite decide_False; [by apply IH|].
      intros ->. apply Hk. apply list_elem_of_fmap. by exists (w, n).
Qed.

(** In the table of a token stream, every pair is a word with the number
    of its occurrences. *)
Lemma count_elem_of tokens w n :
  (w, n) ∈ foldl Counter.incr [] tokens → n = occurrences w tokens.
Proof.
  intros Hin. erewrite <-(getitem_elem_of _ w n); [|by rewrite keys_count; apply first_seen_NoDup|done].
  by rewrite getitem_foldl.
Qed.

Lemma first_index_elem_of w tokens :
  w ∈ tokens → ∃ j, first_index w tokens = Some j.
Proof.
  induction tokens as [|y tokens IH]; simpl; intros Hw.
  - by apply elem_of_nil in Hw.
  - destruct (decide (y = w)); [by eexists|].
    apply elem_of_cons in Hw as [?|Hw]; [by simplify_eq|].
    destruct (IH Hw) as [j ->]. by eexists.
Qed.

(** The first of two tokens in [first_seen] occurs first in the stream. *)
Lemma first_seen_order a b tokens :
  [a; b] `sublist_of` first_seen tokens →
  ∃ i j, first_index a tokens = Some i ∧ first_index b tokens = Some j ∧ i < j.
Proof.
  induction tokens as [|x tokens IH]; simpl; intros Hsub.
  - by apply sublist_nil_r in Hsub.
  - assert (∀ l, l `sublist_of` filter (λ u, u ≠ x) (first_seen tokens) →
              l `sublist_of` first_seen tokens) as Hfil.
    { intros l Hl. etrans; [exact Hl|apply sublist_filter]. }
    apply sublist_cons_r in Hsub as [Hsub|(l' & Heq & Hsub)].
    + assert (a ≠ x ∧ b ≠ x) as [Ha Hb].
      { split; eapply (proj1 (list_elem_of_filter (λ u, u ≠ x) _ _));
          eapply sublist_subseteq; try exact Hsub; set_solver. }
      destruct (IH (Hfil _ Hsub)) as (i & j & Hi & Hj & Hij).
      exists (S i), (S j). rewrite !decide_False, Hi, Hj by done.
      repeat split; [done..|lia].
    + simplify_eq.
      assert (b ∈ filter (λ u, u ≠ x) (first_seen tokens)) as Hb.
      { eapply sublist_subseteq; [exact Hsub|]. by left. }
      apply list_elem_of_filter in Hb as [Hba Hb].
      apply (proj1 (elem_of_first_seen _ _)), first_index_elem_of in Hb as [j Hj].
      exists 0, (S j). rewrite decide_True by done.
      rewrite decide_False, Hj by done. repeat split; [done..|lia].
Qed.
End counter.

(** ** The stable sort behind [most_common] *)

Section sorting.
Implicit Types (x y : string * nat) (l : list (string * nat)).

Lemma insert_desc_Permutation x l : Counter.insert_desc x l ≡ₚ x :: l.
Proof.
  induction l as [|y l IH]; simpl; [done|].
  destruct (decide (y.2 ≤ x.2)); [done|].
  by rewrite IH, Permutation_swap.
Qed.

Lemma sorted_desc_Permutation l : Counter.sorted_desc l ≡ₚ l.
Proof.
  induction l as [|x l IH]; simpl; [done|].
  by rewrite insert_desc_Permutation, IH.
Qed.

Lemma insert_desc_sorted x l :
  StronglySorted count_ge l → StronglySorted count_ge (Counter.insert_desc x l).
Proof.
  induction 1 as [|y l Hl IH Hy]; simpl.
  - by repeat constructor.
  - destruct (decide (y.2 ≤ x.2)) as [Hle|Hgt].
    + constructor; [by constructor|]. constructor; [done|].
      eapply Forall_impl; [exact Hy|]. unfold count_ge. intros z ?. lia.
    + constructor; [done|].
      rewrite insert_desc_Permutation. constructor; [|done].
      unfold count_ge. lia.
Qed.

Lemma sorted_desc_sorted l : StronglySorted count_ge (Counter.sorted_desc l).
Proof.
  induction l as [|x l IH]; simpl; [constructor|]. by apply insert_desc_sorted.
Qed.

(** Stability: the pairs of one count keep their order. *)
Lemma insert_desc_stable k x l :
  filter (λ p, p.2 = k) (Counter.insert_desc x l) = filter (λ p, p.2 = k) (x :: l).
Proof.
  induction l as [|y l IH]; simpl; [done|].
  destruct (decide (y.2 ≤ x.2)) as [Hle|Hgt]; [done|].
  rewrite filter_cons, IH, !filter_cons.
  destruct (decide (y.2 = k)), (decide (x.2 = k)); try done. lia.
Qed.

Lemma sorted_desc_stable k l :
  filter (λ p, p.2 = k) (Counter.sorted_desc l) = filter (λ p, p.2 = k) l.
Proof.
  induction l as [|x l IH]; simpl; [done|].
  by rewrite insert_desc_stable, !filter_cons, IH.
Qed.

Lemma filter_sublist {A} (P : A → Prop) `{∀ a, Decision (P a)} (l1 l2 : list A) :
  l1 `sublist_of` l2 → filter P l1 `sublist_of` filter P l2.
Proof.
  induction 1 as [|a l1 l2 _ IH|a l1 l2 _ IH]; [done|..]; rewrite ?filter_cons.
  - destruct (decide (P a)); [by constructor|done].
  - destruct (decide (P a)); [by constructor|done].
Qed.

Lemma lookup_sublist {A} (l : list A) i j a b :
  i < j → l !! i = Some a → l !! j = Some b → [a; b] `sublist_of` l.
Proof.
  revert i j. induction l as [|c l IH]; intros i j Hij Hi Hj; [done|].
  destruct j as [|j]; [lia|]. destruct i as [|i]; simplify_eq/=.
  - constructor. apply sublist_cons_l.
    apply list_elem_of_lookup_2, list_elem_of_split in Hj as (l1 & l2 & ->).
    exists l1, l2. split; [done|apply sublist_nil_l].
  - constructor. eapply IH; [|done..]. lia.
Qed.

(** Two pairs of one count, the first before the second in the sorted
    list, were in this order before sorting. *)
Lemma most_common_stable l n i j a b :
  i < j → a.2 = b.2 →
  Counter.most_common l n !! i = Some a → Counter.most_common l n !! j = Some b →
  [a; b] `sublist_of` l.
Proof.
  intros Hij Hab Hi Hj.
  pose proof (lookup_sublist _ _ _ _ _ Hij Hi Hj) as Hsub.
  apply (filter_sublist (λ p, p.2 = b.2)) in Hsub.
  rewrite !filter_cons, !decide_True in Hsub by done.
  etrans; [exact Hsub|]. etrans; [apply filter_sublist, sublist_take|].
  rewrite sorted_desc_stable. apply sublist_filter.
Qed.

Lemma most_common_sorted l n : StronglySorted count_ge (Counter.most_common l n).
Proof.
  unfold Counter.most_common.
  pose proof (sorted_desc_sorted l) as Hs. revert n.
  induction Hs as [|x s Hs IH Hx]; intros [|n]; simpl; try constructor; [done|].
  apply Forall_forall. intros y Hy. eapply (proj1 (Forall_forall _ _) Hx).
  eapply sublist_subseteq; [apply sublist_take|exact Hy].
Qed.
End sorting.

(** ** Shuffling and code assignment *)

Section assignment.
Context {rnd : Random}.

Lemma swap_Ok {A} (x : list A) i j :
  i < length x → j < length x → ∃ x', swap x i j = Ok x' ∧ x' ≡ₚ x.
Proof.
  intros [xi Hi]%lookup_lt_is_Some_2 [xj Hj]%lookup_lt_is_Some_2.
  unfold swap. rewrite Hi, Hj. eexists. split; [done|].
  by apply Permutation_insert_swap.
Qed.

(** Inside the list [shuffle] never raises, and it permutes. *)
Lemma shuffle_from_Ok {A} i (x : list A) g :
  i < length x ∨ i = 0 → ∃ x', (shuffle_from i x g).1 = Ok x' ∧ x' ≡ₚ x.
Proof.
  revert x g. induction i as [|i IH]; intros x g Hi; simpl; [by exists x|].
  pose proof (_randbelow_lt (S (S i)) g) as Hj.
  destruct (_randbelow (S (S i)) g) as [j g']. simpl in Hj.
  destruct (swap_Ok x (S i) j) as (x' & -> & Hx'); [lia..|].
  destruct (IH x' g') as (x'' & Hx'' & Hperm).
  { left. rewrite (Permutation_length Hx'). lia. }
  exists x''. split; [done|]. by rewrite Hperm.
Qed.

Lemma shuffle_Ok {A} (x : list A) g :
  shuffle x g = (Ok (shuffled x g), (shuffle x g).2) ∧ shuffled x g ≡ₚ x.
Proof.
  unfold shuffled.
  destruct (shuffle_from_Ok (length x - 1) x g) as (x' & Hx' & Hperm).
  { destruct x; simpl; lia. }
  fold (shuffle x g) in Hx'. rewrite Hx'. split; [|done].
  rewrite <-Hx'. by destruct (shuffle x g).
Qed.

Lemma shuffled_Permutation {A} (x : list A) g : shuffled x g ≡ₚ x.
Proof. apply shuffle_Ok. Qed.

(** Insertions, one key after the other, of pairs with distinct keys. *)
Lemma foldl_insert {A} (f : A → string * string) (l : list A) (m : gmap string string) :
  NoDup (f <$> l).*1 →
  foldl (λ m a, <[(f a).1 := (f a).2]> m) m l = list_to_map (f <$> l) ∪ m.
Proof.
  revert m. induction l as [|a l IH]; intros m Hnd; csimpl.
  - by rewrite (left_id_L ∅ (∪)).
  - csimpl in Hnd. apply NoDup_cons in Hnd as [Ha Hnd].
    rewrite IH by done. rewrite <-insert_union_l.
    by rewrite insert_union_r by by apply not_elem_of_list_to_map_1.
Qed.

Lemma zip_flip {A B} (l : list A) (k : list B) :
  (λ ab, (ab.2, ab.1)) <$> zip l k = zip k l.
Proof.
  revert k. induction l as [|a l IH]; intros [|b k]; csimpl; [done..|].
  by rewrite IH.
Qed.

Lemma foldl_insert_zip (words codes : list string) :
  NoDup words → length words = length codes →
  foldl (λ m wc, <[wc.1 := wc.2]> m) (∅ : gmap string string) (zip words codes)
  = list_to_map (zip words codes).
Proof.
  intros Hnd Hlen.
  etrans; [apply (foldl_insert id)|].
  - rewrite list_fmap_id, fst_zip by lia. done.
  - by rewrite list_fmap_id, (right_id_L ∅ (∪)).
Qed.

Lemma foldl_insert_zip_flip (words codes : list string) :
  NoDup codes → length words = length codes →
  foldl (λ m wc, <[wc.2 := wc.1]> m) (∅ : gmap string string) (zip words codes)
  = list_to_map (zip codes words).
Proof.
  intros Hnd Hlen.
  etrans; [apply (foldl_insert (λ wc, (wc.2, wc.1)))|].
  - rewrite zip_flip, fst_zip by lia. done.
  - by rewrite zip_flip, (right_id_L ∅ (∪)).
Qed.
End assignment.

Section assign_codes.
Context {rnd : Random} {pkl : Pickle}.

Lemma assign_codes_Ok words codeWords counter m1 m2 :
  counter + length words ≤ length codeWords →
  RandomCode.assign_codes words codeWords counter m1 m2 =
    Ok (foldl (λ m wc, <[wc.1 := wc.2]> m) m1 (zip words (drop counter codeWords)),
        foldl (λ m wc, <[wc.2 := wc.1]> m) m2 (zip words (drop counter codeWords))).
Proof.
  revert counter m1 m2. induction words as [|word words IH];
    intros counter m1 m2 Hlen; simpl in *; [done|].
  destruct (codeWords !! counter) as [code|] eqn:Hcode.
  - rewrite (drop_S _ _ _ Hcode). simpl. apply IH. lia.
  - apply lookup_ge_None in Hcode. lia.
Qed.
End assign_codes.

(** ** Construction from a corpus *)

Section construction.
Context {rnd : Random} {pkl : Pickle}.
Implicit Types (self : RandomCode.t) (reader : DatasetReader.t) (w : world).

Lemma vocabulary_of_nil tokens : vocabulary_of tokens = [] ↔ tokens = [].
Proof.
  unfold vocabulary_of, Counter.most_common. split; [|by intros ->].
  intros Hnil. apply first_seen_nil. rewrite <-keys_count.
  apply (f_equal length) in Hnil.
  rewrite length_take, (Permutation_length (sorted_desc_Permutation _)) in Hnil.
  apply length_zero_iff_nil. rewrite length_fmap.
  change (length (@nil (string * nat))) with 0 in Hnil.
  unfold RandomCode.MAX_VOCAB_SIZE in Hnil. lia.
Qed.

Lemma vocabulary_of_sublist tokens :
  ∃ l, l ≡ₚ foldl Counter.incr [] tokens ∧ vocabulary_of tokens `sublist_of` l.
Proof.
  exists (Counter.sorted_desc (foldl Counter.incr [] tokens)).
  split; [apply sorted_desc_Permutation|apply sublist_take].
Qed.

Lemma vocabulary_of_NoDup tokens : NoDup (vocabulary_of tokens).*1.
Proof.
  destruct (vocabulary_of_sublist tokens) as (l & Hl & Hsub).
  eapply sublist_NoDup; [|by apply fmap_sublist].
  rewrite Hl, keys_count. apply first_seen_NoDup.
Qed.

Lemma vocabulary_of_elem_of tokens p :
  p ∈ vocabulary_of tokens → p ∈ foldl Counter.incr [] tokens.
Proof.
  destruct (vocabulary_of_sublist tokens) as (l & Hl & Hsub).
  intros Hp. rewrite <-Hl. by eapply sublist_subseteq.
Qed.

Lemma vocabulary_of_words tokens word :
  word ∈ (vocabulary_of tokens).*1 → word ∈ tokens.
Proof.
  intros ([word' n] & -> & Hp%vocabulary_of_elem_of)%list_elem_of_fmap.
  apply elem_of_first_seen. rewrite <-keys_count.
  apply list_elem_of_fmap. by exists (word', n).
Qed.

Lemma iterate_word_tokens reader :
  Forall is_token (DatasetReader.iterate_word reader).
Proof.
  unfold DatasetReader.iterate_word. apply Forall_forall. intros t Ht.
  apply list_elem_of_bind in Ht as (sentence & Ht & _).
  by eapply (proj1 (Forall_forall _ _) (split_tokens sentence)).
Qed.
End construction.

Section run.
Context {rnd : Random} {pkl : Pickle}.
Implicit Types (self : RandomCode.t) (reader : DatasetReader.t) (w : world).

Lemma init_from_dataset_reader_run reader w :
  RandomCode._init_from_dataset_reader RandomCode.fresh reader w =
    match DatasetReader.iterate_word reader with
    | [] => (Raise ValueError, w)
    | tokens =>
        (Ok (built (random w) tokens),
         World (shuffle (vocabulary_of tokens).*1 (random w)).2 (files w))
    end.
Proof.
  unfold RandomCode._init_from_dataset_reader.
  change (RandomCode.vocab RandomCode.fresh) with (@nil (string * nat)).
  fold (vocabulary_of (DatasetReader.iterate_word reader)).
  pose proof (vocabulary_of_NoDup (DatasetReader.iterate_word reader)) as Hnd.
  destruct (DatasetReader.iterate_word reader) as [|t tokens] eqn:Ht.
  { done. }
  destruct (vocabulary_of (t :: tokens)) as [|p pairs] eqn:Hv.
  { by apply (proj1 (vocabulary_of_nil _)) in Hv. }
  unfold built. rewrite Hv. clear Hv.
  set (words := (p :: pairs).*1) in *.
  destruct (shuffle_Ok words (random w)) as [Hsh Hperm].
  unfold mbind, M_bind, lift, random_shuffle, mret, M_ret, unpack2, zip_star.
  cbv beta iota zeta. fold words. rewrite Hsh.
  set (codeWords := shuffled words (random w)) in *.
  cbv beta iota.
  rewrite assign_codes_Ok by (by rewrite (Permutation_length Hperm)).
  change (RandomCode.map_word_to_code RandomCode.fresh) with (∅ : gmap string string).
  change (RandomCode.map_code_to_word RandomCode.fresh) with (∅ : gmap string string).
  assert (length words = length codeWords) as Hlen
    by (by rewrite (Permutation_length Hperm)).
  assert (NoDup codeWords) as Hnd' by (by rewrite Hperm).
  by rewrite drop_0, foldl_insert_zip, foldl_insert_zip_flip.
Qed.
End run.

(** ** The constructor *)

Section constructor.
Context {rnd : Random} {pkl : Pickle}.
Implicit Types (self : RandomCode.t) (reader : DatasetReader.t) (w : world).

Lemma save_run self path w :
  RandomCode._save_to_pickle_file self path w =
    (Ok (), World (random w) (<[path := dumps (snapshot self)]> (files w))).
Proof. reflexivity. Qed.

Lemma init_corpus_run reader path w :
  RandomCode.__init__ true (Some reader) path w =
    match DatasetReader.iterate_word reader with
    | [] => (Raise ValueError, w)
    | tokens =>
        let self := built (random w) tokens in
        (Ok self,
         World (shuffle (vocabulary_of tokens).*1 (random w)).2
           match path with
           | Some p => <[p := dumps (snapshot self)]> (files w)
           | None => files w
           end)
    end.
Proof.
  unfold RandomCode.__init__, CryptAlgo.__init__.
  cbn [CryptAlgo._init_from_dataset_reader CryptAlgo._save_to_pickle_file
       RandomCode.methods].
  unfold mbind, M_bind. rewrite init_from_dataset_reader_run.
  destruct (DatasetReader.iterate_word reader) as [|t tokens]; [done|].
  by destruct path.
Qed.

(** A successful construction from a corpus read the tokens of a corpus
    that has some, and built [built]. *)
Lemma init_corpus_Ok reader path w self w' :
  RandomCode.__init__ true (Some reader) path w = (Ok self, w') →
  DatasetReader.iterate_word reader ≠ []
  ∧ self = built (random w) (DatasetReader.iterate_word reader).
Proof.
  rewrite init_corpus_run.
  destruct (DatasetReader.iterate_word reader) as [|t tokens]; [done|].
  intros [= <- _]. done.
Qed.

Lemma init_pickle_run path w :
  RandomCode.__init__ false None (Some path) w =
    match files w !! path with
    | None => (Raise FileNotFoundError, w)
    | Some b =>
        match loads b with
        | None => (Raise UnpicklingError, w)
        | Some d =>
            (Ok (RandomCode.mk (seed 42)
                   (RandomCode.characters_choice RandomCode.fresh)
                   (sd_vocab d) (sd_vocab_words d) (sd_vocab_counts d)
                   (sd_map_word_to_code d) (sd_map_code_to_word d)), w)
        end
    end.
Proof.
  unfold RandomCode.__init__, CryptAlgo.__init__.
  cbn [CryptAlgo._init_from_pickle_file RandomCode.methods].
  unfold RandomCode._init_from_pickle_file, mbind, M_bind, pickle_load.
  destruct (files w !! path) as [b|]; [|done]. by destruct (loads b).
Qed.
End constructor.

(** ** The dictionaries of a constructed instance *)

Section built.
Context {rnd : Random} {pkl : Pickle}.
Variables (g : gen) (tokens : list string).

Local Abbreviation words := ((vocabulary_of tokens).*1).
Local Abbreviation codeWords := (shuffled ((vocabulary_of tokens).*1) g).

Lemma built_codeWords : codeWords ≡ₚ words.
Proof. apply shuffled_Permutation. Qed.

Lemma built_words_NoDup : NoDup words.
Proof. apply vocabulary_of_NoDup. Qed.

Lemma built_length : length words = length codeWords.
Proof. by rewrite built_codeWords. Qed.

Lemma elem_of_zip_flip {A B} (l : list A) (k : list B) a b :
  (a, b) ∈ zip l k ↔ (b, a) ∈ zip k l.
Proof.
  rewrite <-(zip_flip l k), list_elem_of_fmap. split.
  - intros Hin. by exists (a, b).
  - by intros ([a' b'] & [= -> ->] & Hin).
Qed.

Lemma built_word_to_code word code :
  RandomCode.map_word_to_code (built g tokens) !! word = Some code
  ↔ (word, code) ∈ zip words codeWords.
Proof.
  symmetry. apply elem_of_list_to_map.
  rewrite fst_zip; [apply built_words_NoDup|]. by rewrite built_length.
Qed.

Lemma built_code_to_word code word :
  RandomCode.map_code_to_word (built g tokens) !! code = Some word
  ↔ (word, code) ∈ zip words codeWords.
Proof.
  rewrite elem_of_zip_flip. symmetry. apply elem_of_list_to_map.
  rewrite fst_zip; [|by rewrite built_length].
  rewrite built_codeWords. apply built_words_NoDup.
Qed.

Lemma built_inverse word code :
  RandomCode.map_word_to_code (built g tokens) !! word = Some code
  ↔ RandomCode.map_code_to_word (built g tokens) !! code = Some word.
Proof. by rewrite built_word_to_code, built_code_to_word. Qed.

Lemma built_dom word :
  is_Some (RandomCode.map_word_to_code (built g tokens) !! word) ↔ word ∈ words.
Proof.
  split.
  - intros [code Hc%built_word_to_code]. by eapply elem_of_zip_l.
  - intros [i Hi]%list_elem_of_lookup.
    destruct (lookup_lt_is_Some_2 codeWords i) as [code Hcode].
    { rewrite <-built_length. by eapply lookup_lt_Some. }
    exists code. apply built_word_to_code, list_elem_of_lookup.
    exists i. by apply lookup_zip_Some.
Qed.

Lemma built_size :
  size (RandomCode.map_word_to_code (built g tokens)) = length words
  ∧ size (RandomCode.map_code_to_word (built g tokens)) = length words.
Proof.
  pose proof built_length as Hlen. pose proof built_words_NoDup as Hnd.
  unfold built. cbn [RandomCode.map_word_to_code RandomCode.map_code_to_word].
  rewrite !map_size_list_to_map, !length_zip.
  - lia.
  - rewrite fst_zip by lia. by rewrite built_codeWords.
  - by rewrite fst_zip by lia.
Qed.

(** Every code is a token of the corpus. *)
Lemma built_code_token word code :
  Forall is_token tokens →
  RandomCode.map_word_to_code (built g tokens) !! word = Some code →
  is_token code.
Proof.
  intros Htok Hc%built_word_to_code%elem_of_zip_r.
  rewrite built_codeWords in Hc.
  apply vocabulary_of_words in Hc.
  by eapply (proj1 (Forall_forall _ _) Htok).
Qed.
End built.

(** ** Whitespace at the ends of a joined list of tokens *)

Section edges.
Implicit Types (s w : string) (ws : list string).

Lemma join_tokens_ne ws : Forall is_token ws → ws ≠ [] → join " " ws ≠ "".
Proof.
  intros Hws Hne. destruct Hws as [|w ws [Hw _] _]; [done|].
  simpl. destruct ws; [done|]. by destruct w.
Qed.

Lemma leading_space_app w s : w ≠ "" → leading_space (w +:+ s) = leading_space w.
Proof. by destruct w. Qed.

Lemma leading_space_token w : is_token w → leading_space w = false.
Proof.
  intros [Hne Hw]. destruct w as [|c w]; [done|].
  simpl in *. by apply orb_false_iff in Hw as [? _].
Qed.

Lemma trailing_space_app s1 s2 :
  s2 ≠ "" → trailing_space (s1 +:+ s2) = trailing_space s2.
Proof.
  intros Hne. induction s1 as [|c s1 IH]; [done|].
  rewrite app_cons. simpl. rewrite IH.
  destruct (s1 +:+ s2) eqn:E; [|done]. by destruct s1, s2.
Qed.

Lemma trailing_space_token w : has_space w = false → trailing_space w = false.
Proof.
  induction w as [|c w IH]; [done|]. simpl.
  intros [Hc Hw]%orb_false_iff. destruct w; [done|]. by apply IH.
Qed.

Lemma join_tokens_edges ws :
  Forall is_token ws →
  leading_space (join " " ws) = false ∧ trailing_space (join " " ws) = false.
Proof.
  intros Hws. split.
  - destruct Hws as [|w ws Hw _]; [done|]. simpl.
    destruct ws; [by apply leading_space_token|].
    rewrite leading_space_app by apply Hw. by apply leading_space_token.
  - induction Hws as [|w ws [Hne Hw] Hws IH]; [done|]. simpl.
    destruct ws as [|w' ws]; [by apply trailing_space_token|].
    rewrite trailing_space_app, trailing_space_app; [done|..].
    + by apply join_tokens_ne.
    + by destruct (join " " (w' :: ws)).
Qed.
End edges.

(** * Main results *)

Section results.
Context {rnd : Random} {pkl : Pickle}.
Implicit Types (self : RandomCode.t) (reader : DatasetReader.t) (w : world).

Lemma known_codes_roundtrip g tokens ts :
  Forall is_token tokens →
  Forall (λ t, is_Some (RandomCode.map_word_to_code (built g tokens) !! t)) ts →
  Forall is_token (known_codes (built g tokens) ts)
  ∧ mapM (λ code, RandomCode.map_code_to_word (built g tokens) !! code)
      (known_codes (built g tokens) ts) = Some ts.
Proof.
  intros Htok. induction 1 as [|t ts [code Hcode] _ [IHtok IHmap]]; [done|].
  rewrite known_codes_cons, Hcode. split.
  - constructor; [|done]. by apply (built_code_token g tokens t).
  - apply built_inverse in Hcode.
    change (mapM ?f (code :: ?l)) with (y ← f code; k ← mapM f l; mret (y :: k)).
    cbv beta. by rewrite Hcode, IHmap.
Qed.

Lemma known_codes_tokens g tokens ts :
  Forall is_token tokens → Forall is_token (known_codes (built g tokens) ts).
Proof.
  intros Htok. unfold known_codes. apply Forall_forall. intros code Hc.
  apply list_elem_of_omap in Hc as (t & _ & Hc).
  by apply (built_code_token g tokens t).
Qed.

Lemma known_codes_length self ts :
  length (known_codes self ts)
  + length (filter (λ t, RandomCode.map_word_to_code self !! t = None) ts)
  = length ts.
Proof.
  induction ts as [|t ts IH]; [done|].
  rewrite known_codes_cons, filter_cons.
  destruct (RandomCode.map_word_to_code self !! t) eqn:E;
    case_decide; simplify_eq; simpl; lia.
Qed.

(** C1: on an instance constructed from a corpus, a text whose tokens are all
    keys of [map_word_to_code] is decrypted from its encryption without error,
    to the text with every run of whitespace turned into one space and the
    whitespace at both ends removed. *)
Theorem decrypt_encrypt_roundtrip reader path w self w' text :
  RandomCode.__init__ true (Some reader) path w = (Ok self, w') →
  Forall (λ token, is_Some (RandomCode.map_word_to_code self !! token)) (split text) →
  RandomCode.decrypt self (RandomCode.encrypt self text) = Ok (normalize text).
Proof.
  intros [_ ->]%init_corpus_Ok Hin.
  pose proof (iterate_word_tokens reader) as Htok.
  destruct (known_codes_roundtrip _ _ _ Htok Hin) as [Hcodes Hmap].
  rewrite decrypt_eq, encrypt_eq, split_join, Hmap by done.
  by rewrite join_split_normalize.
Qed.

(** C2: after construction from a corpus the two dictionaries are inverse to
    each other: a word has a code exactly when that code has that word, so no
    code belongs to two words and no word to two codes; the words that have a
    code are the words of the vocabulary, and both dictionaries have as many
    entries as the vocabulary has words. *)
Theorem maps_are_inverse reader path w self w' :
  RandomCode.__init__ true (Some reader) path w = (Ok self, w') →
  (∀ word code,
     RandomCode.map_word_to_code self !! word = Some code
     ↔ RandomCode.map_code_to_word self !! code = Some word)
  ∧ (∀ word1 word2 code,
       RandomCode.map_word_to_code self !! word1 = Some code →
       RandomCode.map_word_to_code self !! word2 = Some code → word1 = word2)
  ∧ (∀ code1 code2 word,
       RandomCode.map_code_to_word self !! code1 = Some word →
       RandomCode.map_code_to_word self !! code2 = Some word → code1 = code2)
  ∧ (∀ word,
       is_Some (RandomCode.map_word_to_code self !! word)
       ↔ word ∈ RandomCode.vocab_words self)
  ∧ size (RandomCode.map_word_to_code self) = size (RandomCode.map_code_to_word self)
  ∧ size (RandomCode.map_word_to_code self) = length (RandomCode.vocab_words self).
Proof.
  intros [_ ->]%init_corpus_Ok.
  set (g := random w). set (tokens := DatasetReader.iterate_word reader).
  destruct (built_size g tokens) as [Hs1 Hs2].
  split; [apply built_inverse|]. split; [|split; [|split; [|split]]].
  - intros word1 word2 code H1%built_inverse H2%built_inverse. congruence.
  - intros code1 code2 word H1%built_inverse H2%built_inverse. congruence.
  - intros word. apply built_dom.
  - by rewrite Hs1, Hs2.
  - exact Hs1.
Qed.

(** C4: [encrypt] returns the codes of the tokens that are keys of
    [map_word_to_code], in the order of the tokens, joined by single spaces;
    the other tokens leave no trace. On an instance constructed from a corpus
    the output splits into exactly these codes, so it has as many tokens as
    the sentence has known tokens: one fewer than the sentence when exactly one
    token is unknown. *)
Theorem encrypt_drops_unknown reader path w self w' sentence :
  RandomCode.__init__ true (Some reader) path w = (Ok self, w') →
  RandomCode.encrypt self sentence = join " " (known_codes self (split sentence))
  ∧ split (RandomCode.encrypt self sentence) = known_codes self (split sentence)
  ∧ length (split (RandomCode.encrypt self sentence))
    + length (filter (λ t, RandomCode.map_word_to_code self !! t = None)
                (split sentence))
    = length (split sentence)
  ∧ (length (filter (λ t, RandomCode.map_word_to_code self !! t = None)
               (split sentence)) = 1 →
     length (split (RandomCode.encrypt self sentence)) + 1
     = length (split sentence)).
Proof.
  intros [_ ->]%init_corpus_Ok.
  pose proof (iterate_word_tokens reader) as Htok.
  set (self := built _ _).
  assert (split (RandomCode.encrypt self sentence)
          = known_codes self (split sentence)) as Hsplit.
  { rewrite encrypt_eq. by apply split_join, known_codes_tokens. }
  pose proof (known_codes_length self (split sentence)) as Hlen.
  rewrite Hsplit. repeat split; [apply encrypt_eq|done|lia].
Qed.

(** C5: [decrypt] raises [AssertionError] exactly when some token of the text
    is no key of [map_code_to_word]; it returns a string exactly when every
    token is a key, and the string is then the words of the tokens joined by
    single spaces. *)
Theorem decrypt_unknown_code self sentence :
  (RandomCode.decrypt self sentence = Raise AssertionError
   ↔ ∃ code, code ∈ split sentence ∧ RandomCode.map_code_to_word self !! code = None)
  ∧ (∀ out,
       RandomCode.decrypt self sentence = Ok out
       ↔ ∃ words,
           Forall2 (λ code word, RandomCode.map_code_to_word self !! code = Some word)
             (split sentence) words
           ∧ out = join " " words).
Proof.
  rewrite decrypt_eq. split.
  - destruct (mapM _ _) as [words|] eqn:E.
    + split; [done|]. intros (code & Hin & Hnone).
      apply mapM_Some in E.
      apply list_elem_of_lookup in Hin as [i Hi].
      destruct (Forall2_lookup_l _ _ _ _ _ E Hi) as (word & _ & Hw). congruence.
    + split; [|done]. intros _. apply mapM_None, Exists_exists in E.
      destruct E as (code & ? & ?). by exists code.
  - intros out. destruct (mapM _ _) as [words|] eqn:E.
    + apply mapM_Some in E. split.
      * intros [= <-]. by exists words.
      * intros (words' & Hw' & ->). apply mapM_Some in Hw', E. congruence.
    + split; [done|]. intros (words & Hw%mapM_Some & _). congruence.
Qed.

(** C10: when no token of the sentence is a key of [map_word_to_code], as for
    the empty and for a whitespace-only sentence, [encrypt] returns the empty
    string; and on an instance constructed from a corpus the output of
    [encrypt] neither begins nor ends with whitespace. *)
Theorem encrypt_no_known_token reader path w self w' :
  RandomCode.__init__ true (Some reader) path w = (Ok self, w') →
  (∀ sentence,
     Forall (λ t, RandomCode.map_word_to_code self !! t = None) (split sentence) →
     RandomCode.encrypt self sentence = "")
  ∧ (∀ sentence, all_space sentence = true → RandomCode.encrypt self sentence = "")
  ∧ (∀ sentence,
       leading_space (RandomCode.encrypt self sentence) = false
       ∧ trailing_space (RandomCode.encrypt self sentence) = false).
Proof.
  intros [_ ->]%init_corpus_Ok.
  pose proof (iterate_word_tokens reader) as Htok.
  assert (∀ sentence,
     Forall (λ t, RandomCode.map_word_to_code
                    (built (random w) (DatasetReader.iterate_word reader)) !! t = None)
       (split sentence) →
     RandomCode.encrypt (built (random w) (DatasetReader.iterate_word reader)) sentence
     = "") as Hnone.
  { intros sentence Hall. rewrite encrypt_eq.
    induction Hall as [|t ts Ht _ IH]; [done|]. by rewrite known_codes_cons, Ht. }
  split; [done|]. split.
  - intros sentence Hsp. apply Hnone. rewrite split_all_space by done. constructor.
  - intros sentence. rewrite encrypt_eq.
    by apply join_tokens_edges, known_codes_tokens.
Qed.
Lemma StronglySorted_lookup {A} (R : relation A) (l : list A) i j a b :
  StronglySorted R l → i < j → l !! i = Some a → l !! j = Some b → R a b.
Proof.
  intros Hs. revert i j. induction Hs as [|c l Hs IH Hc]; intros i j Hij Hi Hj; [done|].
  destruct j as [|j]; [lia|]. destruct i as [|i]; simplify_eq/=.
  - eapply (proj1 (Forall_forall _ _) Hc). by eapply list_elem_of_lookup_2.
  - eapply IH; [|done..]. lia.
Qed.

Lemma built_vocab_lookup g tokens i word :
  RandomCode.vocab_words (built g tokens) !! i = Some word →
  ∃ n, vocabulary_of tokens !! i = Some (word, n) ∧ n = occurrences word tokens.
Proof.
  change (RandomCode.vocab_words (built g tokens)) with (vocabulary_of tokens).*1.
  intros ([word' n] & -> & Hp)%list_lookup_fmap_Some_1. exists n. split; [done|].
  by apply count_elem_of, vocabulary_of_elem_of, list_elem_of_lookup_2 with i.
Qed.

(** C7: in an instance constructed from a corpus, [vocab_counts] is as long as
    [vocab_words] and holds, position by position, the number of occurrences
    of the word in the token stream; the counts never increase along the
    sequence; and of two words with the same count the one that comes first
    in [vocab_words] has its first occurrence first in the token stream. *)
Theorem vocabulary_order reader path w self w' :
  RandomCode.__init__ true (Some reader) path w = (Ok self, w') →
  length (RandomCode.vocab_counts self) = length (RandomCode.vocab_words self)
  ∧ (∀ i word,
       RandomCode.vocab_words self !! i = Some word →
       RandomCode.vocab_counts self !! i
       = Some (occurrences word (DatasetReader.iterate_word reader)))
  ∧ (∀ i j ci cj,
       i < j →
       RandomCode.vocab_counts self !! i = Some ci →
       RandomCode.vocab_counts self !! j = Some cj → cj ≤ ci)
  ∧ (∀ i j wi wj,
       i < j →
       RandomCode.vocab_words self !! i = Some wi →
       RandomCode.vocab_words self !! j = Some wj →
       occurrences wi (DatasetReader.iterate_word reader)
       = occurrences wj (DatasetReader.iterate_word reader) →
       ∃ fi fj,
         first_index wi (DatasetReader.iterate_word reader) = Some fi
         ∧ first_index wj (DatasetReader.iterate_word reader) = Some fj
         ∧ fi < fj).
Proof.
  intros [_ ->]%init_corpus_Ok.
  set (g := random w). set (tokens := DatasetReader.iterate_word reader).
  split; [|split; [|split]].
  - unfold built. cbn [RandomCode.vocab_counts RandomCode.vocab_words].
    by rewrite !length_fmap.
  - intros i word (n & Hp & ->)%built_vocab_lookup.
    change (RandomCode.vocab_counts (built g tokens)) with (vocabulary_of tokens).*2.
    by rewrite list_lookup_fmap, Hp.
  - intros i j ci cj Hij.
    change (RandomCode.vocab_counts (built g tokens)) with (vocabulary_of tokens).*2.
    intros ([wi ci'] & -> & Hi)%list_lookup_fmap_Some_1
           ([wj cj'] & -> & Hj)%list_lookup_fmap_Some_1.
    change (count_ge (wi, ci') (wj, cj')).
    eapply StronglySorted_lookup; [|exact Hij|exact Hi|exact Hj].
    apply most_common_sorted.
  - intros i j wi wj Hij (ni & Hi & Hni)%built_vocab_lookup
           (nj & Hj & Hnj)%built_vocab_lookup Hocc.
    apply first_seen_order. rewrite <-keys_count.
    change [wi; wj] with ([(wi, ni); (wj, nj)].*1). apply fmap_sublist.
    apply (most_common_stable _ RandomCode.MAX_VOCAB_SIZE i j); [done|..|done|done].
    simpl. congruence.
Qed.

(** What holds of the size of the vocabulary when construction succeeds: at
    most [MAX_VOCAB_SIZE] words, and every distinct token when there are no
    more than that. *)
Lemma vocabulary_size reader path w self w' :
  RandomCode.__init__ true (Some reader) path w = (Ok self, w') →
  length (RandomCode.vocab_words self) ≤ RandomCode.MAX_VOCAB_SIZE
  ∧ (length (first_seen (DatasetReader.iterate_word reader))
     ≤ RandomCode.MAX_VOCAB_SIZE →
     RandomCode.vocab_words self ≡ₚ first_seen (DatasetReader.iterate_word reader)).
Proof.
  intros [_ ->]%init_corpus_Ok.
  change (RandomCode.vocab_words (built ?g ?t)) with (vocabulary_of t).*1.
  unfold vocabulary_of, Counter.most_common. split.
  - rewrite length_fmap, length_take. lia.
  - intros Hlen. rewrite <-keys_count, length_fmap in Hlen.
    rewrite take_ge.
    + by rewrite sorted_desc_Permutation, keys_count.
    + by rewrite (Permutation_length (sorted_desc_Permutation _)).
Qed.

(** Construction succeeds on every corpus that has a token. *)
Lemma construction_succeeds reader path w :
  DatasetReader.iterate_word reader ≠ [] →
  ∃ self w', RandomCode.__init__ true (Some reader) path w = (Ok self, w').
Proof.
  intros Hne. rewrite init_corpus_run.
  destruct (DatasetReader.iterate_word reader); [done|]. by eexists _, _.
Qed.

(** The instance depends on the corpus and on the state of the generator of
    the module, and on nothing else. *)
Lemma construction_deterministic reader path1 path2 w1 w2 self1 self2 w1' w2' :
  random w1 = random w2 →
  RandomCode.__init__ true (Some reader) path1 w1 = (Ok self1, w1') →
  RandomCode.__init__ true (Some reader) path2 w2 = (Ok self2, w2') →
  self1 = self2.
Proof.
  intros Hg [_ ->]%init_corpus_Ok [_ ->]%init_corpus_Ok. by rewrite Hg.
Qed.

(** C6: construction from a corpus without any token, here the corpus without
    lines, does not return: unpacking the empty [zip] raises [ValueError]. *)
Theorem empty_corpus_raises path w :
  RandomCode.__init__ true (Some (DatasetReader.mk [])) path w = (Raise ValueError, w).
Proof. by rewrite init_corpus_run. Qed.

(** The same for every corpus whose lines hold no token. *)
Lemma tokenless_corpus_raises reader path w :
  DatasetReader.iterate_word reader = [] →
  RandomCode.__init__ true (Some reader) path w = (Raise ValueError, w).
Proof. intros Hnil. by rewrite init_corpus_run, Hnil. Qed.

(** Loading what was saved gives the instance back, whatever it holds in
    [vocab], [vocab_words], [vocab_counts] and the dictionaries. *)
Lemma load_saved self path b w :
  files w !! path = Some b → loads b = Some (snapshot self) →
  RandomCode.random_generator self = seed 42 →
  RandomCode.characters_choice self = RandomCode.characters_choice RandomCode.fresh →
  RandomCode.__init__ false None (Some path) w = (Ok self, w).
Proof.
  intros Hb Hload Hgen Hchars. rewrite init_pickle_run, Hb, Hload.
  destruct self. simpl in *. by subst.
Qed.

(** C9: an instance constructed from a corpus and saved to a file, by
    [_save_to_pickle_file] or by the constructor itself, is loaded from that
    file without error as an instance with the same five persisted fields,
    whose [encrypt] and [decrypt] return on every sentence what those of the
    original return. *)
Theorem save_load_roundtrip reader path0 path w self w1 :
  RandomCode.__init__ true (Some reader) path0 w = (Ok self, w1) →
  restored self path (RandomCode._save_to_pickle_file self path w1).2
  ∧ (path0 = Some path → restored self path w1).
Proof.
  intros Hinit. pose proof Hinit as [_ Hself]%init_corpus_Ok.
  assert (∀ w2, files w2 !! path = Some (dumps (snapshot self)) →
                restored self path w2) as Hload.
  { intros w2 Hfile. exists self. split; [|done].
    apply (load_saved _ _ (dumps (snapshot self)));
      [done|apply loads_dumps|by subst..]. }
  split.
  - apply Hload. rewrite save_run. apply lookup_insert_eq.
  - intros ->. apply Hload. rewrite init_corpus_run in Hinit.
    destruct (DatasetReader.iterate_word reader) as [|t tokens]; [done|].
    cbv zeta in Hinit. injection Hinit as Hs Hw. subst w1.
    cbn [files]. rewrite Hs. apply lookup_insert_eq.
Qed.

(** C8: construction raises [AssertionError], with the process as it was,
    when neither a corpus reader nor a path is given, when a corpus is to be
    read and no reader is given, and when a snapshot is to be loaded and a
    reader is given or the path is missing. With a reader and a path and
    [use_dataset_reader] set, construction proceeds as without the path and
    then saves the state at the path. *)
Theorem init_mode_contract (use_dataset_reader : bool) reader path w :
  RandomCode.__init__ use_dataset_reader None None w = (Raise AssertionError, w)
  ∧ RandomCode.__init__ true None (Some path) w = (Raise AssertionError, w)
  ∧ RandomCode.__init__ false (Some reader) (Some path) w = (Raise AssertionError, w)
  ∧ RandomCode.__init__ false (Some reader) None w = (Raise AssertionError, w)
  ∧ RandomCode.__init__ true (Some reader) (Some path) w =
      match RandomCode.__init__ true (Some reader) None w with
      | (Ok self, w1) =>
          (Ok self, World (random w1) (<[path := dumps (snapshot self)]> (files w1)))
      | (Raise e, w1) => (Raise e, w1)
      end.
Proof.
  repeat split; try by destruct use_dataset_reader.
  rewrite !init_corpus_run.
  by destruct (DatasetReader.iterate_word reader).
Qed.
End results.

(** * Further properties *)

(** ** Reading the corpus *)

Section reading.
Implicit Types (s cur : string) (c : ascii).

Lemma is_linebreak_isspace c : is_linebreak c = true → isspace c = true.
Proof.
  unfold is_linebreak, isspace. cbv zeta.
  destruct (N_of_ascii c) as [|n]; [done|].
  rewrite !orb_true_iff, !andb_true_iff, !N.leb_le, !N.eqb_eq. lia.
Qed.

Lemma split_go_app_space cur s1 c s2 :
  isspace c = true →
  split_go cur (s1 +:+ String c s2) = split_go cur s1 ++ split s2.
Proof.
  intros Hc. revert cur. induction s1 as [|d s1 IH]; intros cur.
  - rewrite app_empty_l. simpl. by rewrite Hc.
  - rewrite app_cons. simpl. destruct (isspace d); [|apply IH].
    by rewrite IH, app_assoc.
Qed.

Lemma splitlines_go_split after_cr cur s :
  (after_cr = true → cur = "") →
  splitlines_go after_cr cur s ≫= split = split (cur +:+ s).
Proof.
  revert after_cr cur. induction s as [|c s IH]; intros after_cr cur Hcr.
  - rewrite app_empty_r. simpl. destruct cur; [done|].
    by rewrite bind_cons, app_nil_r.
  - simpl. destruct (after_cr && bool_decide (c = "010"%char)) eqn:Hskip.
    + apply andb_true_iff in Hskip as [-> ->%bool_decide_eq_true].
      rewrite Hcr, IH by done. done.
    + destruct (is_linebreak c) eqn:Hc.
      * rewrite bind_cons, IH by done.
        rewrite app_empty_l. unfold split at 3.
        by rewrite split_go_app_space by by apply is_linebreak_isspace.
      * rewrite IH by done. by rewrite app_assoc'.
Qed.

(** X1: the words that [iterate_word] yields for a corpus file are the
    whitespace-separated tokens of the content of the file, the line
    structure playing no part; and a missing file raises
    [FileNotFoundError]. *)
Theorem corpus_file_tokens (texts : gmap string string) filepath :
  match texts !! filepath with
  | Some content =>
      ∃ reader,
        DatasetReader.__init__ texts filepath = Ok reader
        ∧ DatasetReader.iterate_word reader = split content
  | None => DatasetReader.__init__ texts filepath = Raise FileNotFoundError
  end.
Proof.
  unfold DatasetReader.__init__. destruct (texts !! filepath) as [content|]; [|done].
  eexists. split; [done|].
  unfold DatasetReader.iterate_word, DatasetReader.iterate_sentence, splitlines.
  cbn [DatasetReader.text_data]. by rewrite splitlines_go_split.
Qed.
End reading.

(** ** Substitution *)

Section substitution.
Context {rnd : Random} {pkl : Pickle}.
Implicit Types (self : RandomCode.t) (reader : DatasetReader.t) (w : world).

Lemma split_normalize s : split (normalize s) = split s.
Proof. rewrite <-join_split_normalize. apply split_join, split_tokens. Qed.

Lemma split_app_space a b : split (a +:+ " " +:+ b) = split a ++ split b.
Proof. by apply split_go_app_space. Qed.

Lemma known_codes_app self ts1 ts2 :
  known_codes self (ts1 ++ ts2) = known_codes self ts1 ++ known_codes self ts2.
Proof.
  induction ts1 as [|t ts1 IH]; [done|].
  rewrite <-app_comm_cons, !known_codes_cons, IH.
  by destruct (RandomCode.map_word_to_code self !! t).
Qed.

Lemma built_split_encrypt g tokens sentence :
  Forall is_token tokens →
  split (RandomCode.encrypt (built g tokens) sentence)
  = known_codes (built g tokens) (split sentence).
Proof.
  intros Htok. rewrite encrypt_eq. by apply split_join, known_codes_tokens.
Qed.

Lemma built_word_token g tokens code word :
  Forall is_token tokens →
  RandomCode.map_code_to_word (built g tokens) !! code = Some word →
  is_token word.
Proof.
  intros Htok Hw%built_code_to_word%elem_of_zip_l.
  apply vocabulary_of_words in Hw.
  by eapply (proj1 (Forall_forall _ _) Htok).
Qed.

Lemma known_codes_decrypt g tokens ts :
  mapM (λ code, RandomCode.map_code_to_word (built g tokens) !! code)
    (known_codes (built g tokens) ts)
  = Some (known_words (built g tokens) ts).
Proof.
  unfold known_words. induction ts as [|t ts IH]; [done|].
  rewrite known_codes_cons, filter_cons.
  destruct (RandomCode.map_word_to_code (built g tokens) !! t) as [code|] eqn:Hc.
  - rewrite decide_True by done. apply built_inverse in Hc.
    change (mapM ?f (code :: ?l)) with (y ← f code; k ← mapM f l; mret (y :: k)).
    cbv beta. by rewrite Hc, IH.
  - rewrite decide_False; [done|]. by intros [? ?].
Qed.

Lemma codes_encrypt g tokens codes :
  Forall is_token tokens →
  Forall (λ code, is_Some (RandomCode.map_code_to_word (built g tokens) !! code)) codes →
  ∃ words,
    mapM (λ code, RandomCode.map_code_to_word (built g tokens) !! code) codes
    = Some words
    ∧ Forall is_token words
    ∧ known_codes (built g tokens) words = codes.
Proof.
  intros Htok. induction 1 as [|code codes [word Hw] _ (words & Hmap & Hws & Hk)].
  - by exists [].
  - exists (word :: words). split; [|split].
    + change (mapM ?f (code :: ?l)) with (y ← f code; k ← mapM f l; mret (y :: k)).
      cbv beta. by rewrite Hw, Hmap.
    + constructor; [|done]. by apply (built_word_token g tokens code).
    + apply built_inverse in Hw. by rewrite known_codes_cons, Hw, Hk.
Qed.

(** X2: for every sentence, known words or not, decrypting what [encrypt]
    returns succeeds and gives the known tokens of the sentence, in their
    order, joined by single spaces. *)
Theorem decrypt_encrypt_known reader path w self w' sentence :
  RandomCode.__init__ true (Some reader) path w = (Ok self, w') →
  RandomCode.decrypt self (RandomCode.encrypt self sentence)
  = Ok (join " " (known_words self (split sentence))).
Proof.
  intros [_ ->]%init_corpus_Ok.
  pose proof (iterate_word_tokens reader) as Htok.
  by rewrite decrypt_eq, built_split_encrypt, known_codes_decrypt.
Qed.

(** X3: the round trip in the other direction: a text whose tokens are all
    keys of [map_code_to_word] is decrypted without error, and encrypting the
    result gives the text back, whitespace normalized. *)
Theorem encrypt_decrypt_roundtrip reader path w self w' text :
  RandomCode.__init__ true (Some reader) path w = (Ok self, w') →
  Forall (λ code, is_Some (RandomCode.map_code_to_word self !! code)) (split text) →
  ∃ out,
    RandomCode.decrypt self text = Ok out
    ∧ RandomCode.encrypt self out = normalize text.
Proof.
  intros [_ ->]%init_corpus_Ok Hin.
  pose proof (iterate_word_tokens reader) as Htok.
  destruct (codes_encrypt _ _ _ Htok Hin) as (words & Hmap & Hws & Hk).
  exists (join " " words). rewrite decrypt_eq, Hmap. split; [done|].
  by rewrite encrypt_eq, split_join, Hk, join_split_normalize.
Qed.

(** X4: every token of an encryption is a word of the vocabulary and has a
    code itself, so the output of [encrypt] can be encrypted again without
    losing a token. *)
Theorem encrypt_stays_in_vocabulary reader path w self w' sentence token :
  RandomCode.__init__ true (Some reader) path w = (Ok self, w') →
  token ∈ split (RandomCode.encrypt self sentence) →
  token ∈ RandomCode.vocab_words self
  ∧ is_Some (RandomCode.map_word_to_code self !! token).
Proof.
  intros [_ ->]%init_corpus_Ok.
  pose proof (iterate_word_tokens reader) as Htok.
  rewrite built_split_encrypt by done. unfold known_codes.
  intros (t & _ & Hc)%list_elem_of_omap.
  assert (token ∈ (vocabulary_of (DatasetReader.iterate_word reader)).*1) as Hin.
  { apply built_word_to_code, elem_of_zip_r in Hc.
    by rewrite built_codeWords in Hc. }
  split; [exact Hin|]. by apply built_dom.
Qed.

(** X5: on any instance, [encrypt] and [decrypt] see only the tokens of
    their argument: normalizing the whitespace first changes neither
    result. *)
Theorem whitespace_is_irrelevant self sentence :
  RandomCode.encrypt self (normalize sentence) = RandomCode.encrypt self sentence
  ∧ RandomCode.decrypt self (normalize sentence) = RandomCode.decrypt self sentence.
Proof. by rewrite !encrypt_eq, !decrypt_eq, split_normalize. Qed.

(** X6: encryption goes word by word: the tokens of the encryption of two
    sentences put together with a space are those of the encryption of the
    first followed by those of the second. *)
Theorem encrypt_concatenation reader path w self w' a b :
  RandomCode.__init__ true (Some reader) path w = (Ok self, w') →
  split (RandomCode.encrypt self (a +:+ " " +:+ b))
  = split (RandomCode.encrypt self a) ++ split (RandomCode.encrypt self b).
Proof.
  intros [_ ->]%init_corpus_Ok.
  pose proof (iterate_word_tokens reader) as Htok.
  by rewrite !built_split_encrypt, split_app_space, known_codes_app.
Qed.
End substitution.

(** ** The vocabulary *)

Section vocabulary.
Context {rnd : Random} {pkl : Pickle}.
Implicit Types (self : RandomCode.t) (reader : DatasetReader.t) (w : world).

Lemma getitem_elem_of_keys (c : Counter.t) word :
  word ∈ c.*1 → (word, Counter.getitem c word) ∈ c.
Proof.
  induction c as [|[k n] c IH]; csimpl; [by intros ?%elem_of_nil|].
  destruct (decide (k = word)) as [->|Hne]; [by left|].
  intros [?|Hin]%elem_of_cons; [done|]. right. by apply IH.
Qed.

Lemma table_elem_of tokens word :
  word ∈ tokens →
  (word, occurrences word tokens) ∈ foldl Counter.incr [] tokens.
Proof.
  intros Hin%elem_of_first_seen. rewrite <-keys_count in Hin.
  apply getitem_elem_of_keys in Hin. by rewrite getitem_foldl in Hin.
Qed.

Lemma occurrences_pos word tokens : word ∈ tokens → 0 < occurrences word tokens.
Proof.
  intros Hin. unfold occurrences.
  assert (word ∈ filter (λ t, t = word) tokens) as Hf
    by by apply list_elem_of_filter.
  destruct (filter _ tokens); [by apply elem_of_nil in Hf|simpl; lia].
Qed.

(** Whatever [most_common] leaves out has no larger count than anything it
    returns. *)
Lemma most_common_excluded (c : Counter.t) n p q :
  p ∈ c → p ∉ Counter.most_common c n → q ∈ Counter.most_common c n → p.2 ≤ q.2.
Proof.
  unfold Counter.most_common. intros Hp Hnp Hq.
  pose proof (sorted_desc_sorted c) as Hs.
  rewrite <-(take_drop n (Counter.sorted_desc c)) in Hs.
  apply (StronglySorted_app_1_elem_of count_ge _ _ q p Hs Hq).
  rewrite <-(sorted_desc_Permutation c), <-(take_drop n (Counter.sorted_desc c)) in Hp.
  by apply elem_of_app in Hp as [?|?].
Qed.

(** X7: the frequency table of a constructed instance is exact: its keys are
    the distinct tokens of the corpus in the order of their first
    occurrences, and the count of any word, in the corpus or not, is the
    number of its occurrences. *)
Theorem frequency_table_exact reader path w self w' :
  RandomCode.__init__ true (Some reader) path w = (Ok self, w') →
  (RandomCode.vocab self).*1 = first_seen (DatasetReader.iterate_word reader)
  ∧ ∀ word,
      Counter.getitem (RandomCode.vocab self) word
      = occurrences word (DatasetReader.iterate_word reader).
Proof.
  intros [_ ->]%init_corpus_Ok.
  change (RandomCode.vocab (built ?g ?t)) with (foldl Counter.incr [] t).
  split; [apply keys_count|]. intros word. by rewrite getitem_foldl.
Qed.

(** X8: the vocabulary of a constructed instance has exactly as many words
    as the corpus has distinct tokens, or [MAX_VOCAB_SIZE] when there are
    more; and at least one. *)
Theorem vocabulary_size_exact reader path w self w' :
  RandomCode.__init__ true (Some reader) path w = (Ok self, w') →
  length (RandomCode.vocab_words self)
  = RandomCode.MAX_VOCAB_SIZE `min` length (first_seen (DatasetReader.iterate_word reader))
  ∧ 0 < length (RandomCode.vocab_words self).
Proof.
  intros [Hne ->]%init_corpus_Ok.
  change (RandomCode.vocab_words (built ?g ?t)) with (vocabulary_of t).*1.
  assert (length (vocabulary_of (DatasetReader.iterate_word reader)).*1
          = RandomCode.MAX_VOCAB_SIZE
              `min` length (first_seen (DatasetReader.iterate_word reader))) as Hlen.
  { unfold vocabulary_of, Counter.most_common.
    rewrite length_fmap, length_take.
    rewrite (Permutation_length (sorted_desc_Permutation _)).
    by rewrite <-keys_count, length_fmap. }
  split; [done|].
  destruct ((vocabulary_of (DatasetReader.iterate_word reader)).*1) eqn:E;
    [|simpl; lia].
  apply fmap_nil_inv, vocabulary_of_nil in E. done.
Qed.

(** X9: no word is listed twice in [vocab_words], every listed word occurs in
    the corpus, and every count in [vocab_counts] is positive. *)
Theorem vocabulary_well_formed reader path w self w' :
  RandomCode.__init__ true (Some reader) path w = (Ok self, w') →
  NoDup (RandomCode.vocab_words self)
  ∧ (∀ word, word ∈ RandomCode.vocab_words self →
             word ∈ DatasetReader.iterate_word reader)
  ∧ Forall (λ n, 0 < n) (RandomCode.vocab_counts self).
Proof.
  intros [_ ->]%init_corpus_Ok.
  change (RandomCode.vocab_words (built ?g ?t)) with (vocabulary_of t).*1.
  change (RandomCode.vocab_counts (built ?g ?t)) with (vocabulary_of t).*2.
  split; [apply vocabulary_of_NoDup|]. split; [apply vocabulary_of_words|].
  apply Forall_forall. intros n ([word n'] & -> & Hp)%list_elem_of_fmap.
  apply vocabulary_of_elem_of in Hp. pose proof (count_elem_of _ _ _ Hp) as ->.
  apply occurrences_pos, elem_of_first_seen. rewrite <-keys_count.
  apply list_elem_of_fmap. by eexists (_, _).
Qed.

(** X10: the vocabulary holds the most frequent tokens: a token of the corpus
    is in [vocab_words], or it occurs no more often than any word that
    is. *)
Theorem vocabulary_most_frequent reader path w self w' word other :
  RandomCode.__init__ true (Some reader) path w = (Ok self, w') →
  word ∈ RandomCode.vocab_words self →
  other ∈ DatasetReader.iterate_word reader →
  other ∈ RandomCode.vocab_words self
  ∨ occurrences other (DatasetReader.iterate_word reader)
    ≤ occurrences word (DatasetReader.iterate_word reader).
Proof.
  intros [_ ->]%init_corpus_Ok.
  change (RandomCode.vocab_words (built ?g ?t)) with (vocabulary_of t).*1.
  set (tokens := DatasetReader.iterate_word reader).
  intros ([word' n] & -> & Hp)%list_elem_of_fmap Hother.
  destruct (decide (other ∈ (vocabulary_of tokens).*1)) as [Hin|Hout]; [by left|].
  right.
  pose proof (count_elem_of _ _ _ (vocabulary_of_elem_of _ _ Hp)) as ->.
  apply (most_common_excluded (foldl Counter.incr [] tokens)
           RandomCode.MAX_VOCAB_SIZE (other, occurrences other tokens)
           (word', occurrences word' tokens)); [by apply table_elem_of| |done].
  intros Hin. apply Hout, list_elem_of_fmap. by eexists (_, _).
Qed.

(** X11: the codes are the vocabulary itself in another order: listing the
    code of each word of [vocab_words] gives a permutation of
    [vocab_words]. *)
Theorem codes_permute_vocabulary reader path w self w' :
  RandomCode.__init__ true (Some reader) path w = (Ok self, w') →
  ∃ codeWords,
    codeWords ≡ₚ RandomCode.vocab_words self
    ∧ Forall2 (λ word code, RandomCode.map_word_to_code self !! word = Some code)
        (RandomCode.vocab_words self) codeWords.
Proof.
  intros [_ ->]%init_corpus_Ok.
  set (g := random w). set (tokens := DatasetReader.iterate_word reader).
  change (RandomCode.vocab_words (built g tokens)) with (vocabulary_of tokens).*1.
  exists (shuffled (vocabulary_of tokens).*1 g).
  split; [apply shuffled_Permutation|].
  apply Forall2_same_length_lookup. split; [apply built_length|].
  intros i word code Hw Hc. apply built_word_to_code, list_elem_of_lookup.
  exists i. by apply lookup_zip_Some.
Qed.

(** X12: with a corpus of one distinct token nothing is hidden: the only
    word is its own code, and a sentence of known words is encrypted to
    itself, whitespace normalized. *)
Theorem single_word_vocabulary reader path w self w' :
  RandomCode.__init__ true (Some reader) path w = (Ok self, w') →
  length (RandomCode.vocab_words self) = 1 →
  (∀ word code, RandomCode.map_word_to_code self !! word = Some code → code = word)
  ∧ ∀ sentence,
      Forall (λ t, is_Some (RandomCode.map_word_to_code self !! t)) (split sentence) →
      RandomCode.encrypt self sentence = normalize sentence.
Proof.
  intros [_ ->]%init_corpus_Ok.
  set (g := random w). set (tokens := DatasetReader.iterate_word reader).
  change (RandomCode.vocab_words (built g tokens)) with (vocabulary_of tokens).*1.
  intros Hlen.
  assert (∀ word code,
            RandomCode.map_word_to_code (built g tokens) !! word = Some code →
            code = word) as Hid.
  { intros word code Hc%built_word_to_code.
    destruct ((vocabulary_of tokens).*1) as [|v [|??]]; simplify_eq/=.
    apply list_elem_of_singleton in Hc. by simplify_eq. }
  split; [done|]. intros sentence Hall.
  rewrite encrypt_eq, <-join_split_normalize. f_equal.
  induction Hall as [|t ts [code Hc] _ IH]; [done|].
  by rewrite known_codes_cons, Hc, (Hid _ _ Hc), IH.
Qed.

(** X13: every key and every value of both dictionaries is a token: not
    empty and free of whitespace. *)
Theorem dictionaries_hold_tokens reader path w self w' :
  RandomCode.__init__ true (Some reader) path w = (Ok self, w') →
  (∀ word code,
     RandomCode.map_word_to_code self !! word = Some code →
     is_token word ∧ is_token code)
  ∧ (∀ code word,
       RandomCode.map_code_to_word self !! code = Some word →
       is_token code ∧ is_token word).
Proof.
  intros [_ ->]%init_corpus_Ok.
  pose proof (iterate_word_tokens reader) as Htok.
  set (g := random w). set (tokens := DatasetReader.iterate_word reader) in *.
  assert (∀ word code,
            RandomCode.map_word_to_code (built g tokens) !! word = Some code →
            is_token word ∧ is_token code) as Hboth.
  { intros word code Hc. split.
    - apply built_inverse in Hc. by apply (built_word_token g tokens code).
    - by apply (built_code_token g tokens word). }
  split; [done|]. intros code word Hw%built_inverse.
  by destruct (Hboth _ _ Hw).
Qed.
End vocabulary.

(** ** Persistence and the constructor *)

Section persistence.
Context {rnd : Random} {pkl : Pickle}.
Implicit Types (self : RandomCode.t) (reader : DatasetReader.t) (w : world).





(** X17: [CryptAlgo] by itself cannot be constructed: with its own methods,
    which raise [NotImplementedError], every call of its constructor raises
    that or [AssertionError], and leaves the process as it was. *)
Theorem base_class_raises (Self : Type) (self : Self) use_dataset_reader
    dataset_reader save_pickle_file w :
  ∃ e,
    @CryptAlgo.__init__ rnd pkl Self (CryptAlgo.abstract Self) self
      use_dataset_reader dataset_reader save_pickle_file w = (Raise e, w)
    ∧ (e = AssertionError ∨ e = NotImplementedError).
Proof.
  destruct use_dataset_reader, dataset_reader, save_pickle_file;
    eexists; (split; [reflexivity|]); auto.
Qed.
End persistence.

(** ** Code generation *)

Section generation.
Context {rnd : Random} {pkl : Pickle}.
Implicit Types (self : RandomCode.t) (reader : DatasetReader.t) (w : world).

Lemma alphabet_letters :
  length (RandomCode.characters_choice RandomCode.fresh)
  = RandomCode.LOWER_CASE_ALPHABET_SIZE
  ∧ Forall lower_letter (RandomCode.characters_choice RandomCode.fresh).
Proof.
  split; [reflexivity|]. unfold RandomCode.fresh.
  cbn [RandomCode.characters_choice]. vm_compute seq. vm_compute fmap.
  repeat constructor; eexists; split; reflexivity.
Qed.

Lemma draw_codes_bound n g :
  length (RandomCode.draw_codes n g).1 = n
  ∧ Forall (λ r, r < RandomCode.LOWER_CASE_ALPHABET_SIZE) (RandomCode.draw_codes n g).1.
Proof.
  revert g. induction n as [|n IH]; intros g; simpl; [by split|].
  unfold randint.
  pose proof (_randbelow_lt (RandomCode.LOWER_CASE_ALPHABET_SIZE - 1 + 1 - 0) g) as Hr.
  destruct (_randbelow _ g) as [r g']. destruct (IH g') as [Hlen Hall].
  destruct (RandomCode.draw_codes n g') as [rs g'']. simpl in *. split; [by rewrite Hlen|].
  constructor; [|done]. unfold RandomCode.LOWER_CASE_ALPHABET_SIZE in *. lia.
Qed.

Lemma join_letters ss :
  Forall lower_letter ss →
  String.length (join "" ss) = length ss ∧ all_lower (join "" ss) = true.
Proof.
  induction 1 as [|s ss (c & -> & Hc) _ [IHlen IHlow]]; [done|].
  assert (join "" (String c "" :: ss) = String c (join "" ss)) as ->
    by by destruct ss.
  simpl. by rewrite IHlen, Hc, IHlow.
Qed.

Lemma init_characters_choice use_dataset_reader dataset_reader save_pickle_file w self w' :
  RandomCode.__init__ use_dataset_reader dataset_reader save_pickle_file w = (Ok self, w') →
  RandomCode.characters_choice self = RandomCode.characters_choice RandomCode.fresh.
Proof.
  destruct use_dataset_reader, dataset_reader as [reader|], save_pickle_file as [path|];
    try done.
  - by intros [_ ->]%init_corpus_Ok.
  - by intros [_ ->]%init_corpus_Ok.
  - rewrite init_pickle_run. destruct (files w !! path) as [b|]; [|done].
    destruct (loads b); [|done]. by intros [= <- _].
Qed.

(** X18: on every instance that the constructor returns, built or loaded,
    [_generate_code] does not raise and returns [NUM_CODE_LENGTH] lowercase
    letters; it draws from the generator of the instance and leaves the
    vocabulary and the dictionaries as they are. *)
Theorem generate_code_letters use_dataset_reader dataset_reader save_pickle_file
    w self w' :
  RandomCode.__init__ use_dataset_reader dataset_reader save_pickle_file w = (Ok self, w') →
  ∃ code,
    (RandomCode._generate_code self).2 = Some code
    ∧ String.length code = RandomCode.NUM_CODE_LENGTH
    ∧ all_lower code = true
    ∧ snapshot (RandomCode._generate_code self).1 = snapshot self.
Proof.
  intros Hchars%init_characters_choice. unfold RandomCode._generate_code.
  destruct (draw_codes_bound RandomCode.NUM_CODE_LENGTH
              (RandomCode.random_generator self)) as [Hlen Hall].
  destruct (RandomCode.draw_codes _ _) as [random_codes g]. simpl in Hlen, Hall.
  cbn [fst snd]. rewrite Hchars. destruct alphabet_letters as [Hsize Hletters].
  assert (∃ ss,
            mapM (λ i, RandomCode.characters_choice RandomCode.fresh !! i) random_codes
            = Some ss
            ∧ length ss = length random_codes ∧ Forall lower_letter ss)
    as (ss & -> & Hss & Hlow).
  { clear Hlen. induction Hall as [|r rs Hr _ (ss & IH & Hss & Hlow)]; [by exists []|].
    destruct (lookup_lt_is_Some_2 (RandomCode.characters_choice RandomCode.fresh) r)
      as [s Hs]; [by rewrite Hsize|].
    exists (s :: ss).
    change (mapM ?f (r :: ?l)) with (y ← f r; k ← mapM f l; mret (y :: k)).
    cbv beta. rewrite Hs, IH. split; [done|]. split; [simpl; by rewrite Hss|].
    constructor; [|done].
    by eapply (proj1 (Forall_forall _ _) Hletters), list_elem_of_lookup_2. }
  destruct (join_letters ss Hlow) as [Hl Ha].
  eexists. split; [done|]. by rewrite Hl, Hss, Hlen.
Qed.
End generation.

(** ** The driver *)

Section driver.
Context {rnd : Random} {pkl : Pickle}.
Implicit Types (self : RandomCode.t) (w : world).

Lemma iterate_word_splitlines content :
  DatasetReader.iterate_word (DatasetReader.mk (splitlines content)) = split content.
Proof.
  unfold DatasetReader.iterate_word, DatasetReader.iterate_sentence, splitlines.
  cbn [DatasetReader.text_data]. by rewrite splitlines_go_split.
Qed.

Lemma built_decrypt_encrypt g tokens sentence :
  Forall is_token tokens →
  RandomCode.decrypt (built g tokens) (RandomCode.encrypt (built g tokens) sentence)
  = Ok (join " " (known_words (built g tokens) (split sentence))).
Proof.
  intros Htok. by rewrite decrypt_eq, built_split_encrypt, known_codes_decrypt.
Qed.

Lemma built_knows_corpus g tokens ts :
  length (first_seen tokens) ≤ RandomCode.MAX_VOCAB_SIZE →
  Forall (λ t, t ∈ tokens) ts →
  known_words (built g tokens) ts = ts.
Proof.
  intros Hlen Hall. apply filter_id. eapply Forall_impl; [exact Hall|].
  intros t Ht. apply built_dom.
  unfold vocabulary_of, Counter.most_common. rewrite take_ge.
  - rewrite sorted_desc_Permutation, keys_count. by apply elem_of_first_seen.
  - rewrite (Permutation_length (sorted_desc_Permutation _)).
    by rewrite <-keys_count, length_fmap in Hlen.
Qed.

(** X19: on a corpus file with at least one token the driver runs to its
    end: it prints nine lines, and the three lines of the instance loaded
    from the snapshot are the three lines of the instance built from the
    corpus. When the corpus has no more than [MAX_VOCAB_SIZE] distinct
    tokens and holds the six words of the sentence, the decrypted line
    shows the sentence itself. *)
Theorem driver_output texts content w :
  texts !! "test_dataset.txt" = Some content →
  split content ≠ [] →
  ∃ encrypted decrypted w',
    main texts w =
      ([print2 "Sentence: " "I went to eat an apple";
        print2 "Encrypted: " encrypted;
        print2 "Decrypted: " decrypted;
        "Should expect decrypted to be same as sentence";
        string_of_list_ascii (replicate 88 "~"%char);
        print2 "Sentence: " "I went to eat an apple";
        print2 "Encrypted: " encrypted;
        print2 "Decrypted: " decrypted;
        "Should be the save as previous output"], Ok (), w')
    ∧ (length (first_seen (split content)) ≤ RandomCode.MAX_VOCAB_SIZE →
       Forall (λ t, t ∈ split content) (split "I went to eat an apple") →
       decrypted = "I went to eat an apple").
Proof.
  intros Htexts Hne. unfold main, DatasetReader.__init__. rewrite Htexts.
  rewrite init_corpus_run, iterate_word_splitlines.
  pose proof (split_tokens content) as Htok.
  destruct (split content) as [|t tokens] eqn:Hsplit; [done|]. cbv zeta.
  set (self := built (random w) (t :: tokens)).
  set (w1 := World _ _).
  assert (RandomCode.__init__ false None (Some "random_code.pk") w1 = (Ok self, w1))
    as Hload.
  { apply (load_saved _ _ (dumps (snapshot self)));
      [apply lookup_insert_eq|apply loads_dumps|done..]. }
  pose proof (built_decrypt_encrypt (random w) (t :: tokens)
                "I went to eat an apple" Htok) as Hdec.
  fold self in Hdec.
  exists (RandomCode.encrypt self "I went to eat an apple"),
    (join " " (known_words self (split "I went to eat an apple"))), w1.
  split.
  - cbv beta iota. unfold report. rewrite Hdec. cbv beta iota.
    rewrite Hload. cbv beta iota. rewrite Hdec. reflexivity.
  - intros Hlen Hall. unfold self.
    rewrite (built_knows_corpus _ _ _ Hlen Hall). reflexivity.
Qed.

(** X20: without its corpus the driver prints nothing and writes nothing:
    a missing corpus file ends it with [FileNotFoundError], a corpus file
    without any token with [ValueError]. *)
Theorem driver_without_corpus texts w :
  (texts !! "test_dataset.txt" = None →
   main texts w = ([], Raise FileNotFoundError, w))
  ∧ ∀ content,
      texts !! "test_dataset.txt" = Some content →
      split content = [] →
      main texts w = ([], Raise ValueError, w).
Proof.
  unfold main, DatasetReader.__init__. split.
  - by intros ->.
  - intros content -> Hnil.
    by rewrite init_corpus_run, iterate_word_splitlines, Hnil.
Qed.
End driver.

(** * Runs *)

Section runs.
Local Existing Instance counter_random.
Local Existing Instance plain_pickle.

(** C3: two constructions from the same corpus, one after the other in one
    process: both instances carry the generator seeded with 42 and the same
    vocabulary in the same order, and yet their [map_word_to_code] differ,
    and so do their encryptions of one sentence; the shuffle drew from the
    generator of the module, which the first construction had advanced. *)
Theorem shuffle_ignores_seed :
  (run_corpus apple_corpus None 0).1 = Ok (apple_code 0)
  ∧ (RandomCode.__init__ true (Some apple_corpus) None
       (run_corpus apple_corpus None 0).2).1 = Ok apple_again
  ∧ RandomCode.random_generator (apple_code 0) = seed 42
  ∧ RandomCode.random_generator apple_again = seed 42
  ∧ RandomCode.vocab_words (apple_code 0) = RandomCode.vocab_words apple_again
  ∧ RandomCode.map_word_to_code (apple_code 0) !! "I" = Some "an"
  ∧ RandomCode.map_word_to_code apple_again !! "I" = Some "I"
  ∧ RandomCode.encrypt (apple_code 0) "I went to eat an apple"
    = "an eat apple to went I"
  ∧ RandomCode.encrypt apple_again "I went to eat an apple"
    = "I an to eat went apple".
Proof. repeat split; vm_compute; reflexivity. Qed.

(** The round trip on the corpus of the driver: a sentence of known words,
    with whitespace to normalize. *)
Lemma decrypt_encrypt_roundtrip_witness :
  RandomCode.decrypt (apple_code 0)
    (RandomCode.encrypt (apple_code 0) "  I went  to eat an apple ")
  = Ok "I went to eat an apple".
Proof.
  apply (decrypt_encrypt_roundtrip apple_corpus None (world0 0) (apple_code 0)
           (run_corpus apple_corpus None 0).2 "  I went  to eat an apple ").
  - vm_compute. reflexivity.
  - vm_compute. repeat constructor; eexists; reflexivity.
Defined.

(** The dictionaries built from the corpus of the driver have one size. *)
Lemma maps_are_inverse_witness :
  size (RandomCode.map_word_to_code (apple_code 0))
  = size (RandomCode.map_code_to_word (apple_code 0)).
Proof.
  apply (maps_are_inverse apple_corpus None (world0 0) (apple_code 0)
           (run_corpus apple_corpus None 0).2).
  vm_compute. reflexivity.
Defined.

(** The sentence with the elephant, on the corpus of the driver. *)
Lemma encrypt_drops_unknown_witness :
  length (split (RandomCode.encrypt (apple_code 0) "I went to eat an elephant")) + 1
  = length (split "I went to eat an elephant").
Proof.
  apply (encrypt_drops_unknown apple_corpus None (world0 0) (apple_code 0)
           (run_corpus apple_corpus None 0).2 "I went to eat an elephant").
  - vm_compute. reflexivity.
  - vm_compute. reflexivity.
Defined.

(** A corpus with ties: [a] and [c] occur twice, [b] and [d] once. *)
Lemma vocabulary_order_witness :
  RandomCode.vocab_words tie_code = ["a"; "c"; "b"; "d"]
  ∧ length (RandomCode.vocab_counts tie_code) = length (RandomCode.vocab_words tie_code).
Proof.
  split; [vm_compute; reflexivity|].
  apply (vocabulary_order tie_corpus None (world0 0) tie_code
           (run_corpus tie_corpus None 0).2).
  vm_compute. reflexivity.
Defined.

(** The instance of the driver, saved by the constructor and loaded again. *)
Lemma save_load_roundtrip_witness :
  restored (apple_code 0) "random_code.pk"
    (run_corpus apple_corpus (Some "random_code.pk") 0).2.
Proof.
  apply (save_load_roundtrip apple_corpus (Some "random_code.pk") "random_code.pk"
           (world0 0) (apple_code 0)
           (run_corpus apple_corpus (Some "random_code.pk") 0).2).
  - vm_compute. reflexivity.
  - reflexivity.
Defined.

(** A whitespace-only sentence and a padded one, on the corpus of the driver. *)
Lemma encrypt_no_known_token_witness :
  RandomCode.encrypt (apple_code 0) "   " = ""
  ∧ leading_space (RandomCode.encrypt (apple_code 0) " an apple ") = false.
Proof.
  pose proof (encrypt_no_known_token apple_corpus None (world0 0) (apple_code 0)
                (run_corpus apple_corpus None 0).2) as Hw.
  destruct Hw as (_ & Hspace & Hedges); [vm_compute; reflexivity|].
  split; [by apply Hspace|apply Hedges].
Defined.

(** A reader and a path together, as in the driver: construction returns the
    instance and the file holds its state. *)
Lemma both_supplied_succeeds :
  (run_corpus apple_corpus (Some "random_code.pk") 0).1 = Ok (apple_code 0)
  ∧ files (run_corpus apple_corpus (Some "random_code.pk") 0).2 !! "random_code.pk"
    = Some (dumps (snapshot (apple_code 0))).
Proof. split; vm_compute; reflexivity. Qed.

(** The sentence with the elephant, encrypted and decrypted. *)
Lemma decrypt_encrypt_known_witness :
  RandomCode.decrypt (apple_code 0)
    (RandomCode.encrypt (apple_code 0) "I went to eat an elephant")
  = Ok "I went to eat an".
Proof.
  apply (decrypt_encrypt_known apple_corpus None (world0 0) (apple_code 0)
           (run_corpus apple_corpus None 0).2 "I went to eat an elephant").
  vm_compute. reflexivity.
Defined.

(** A text of codes, decrypted and encrypted again. *)
Lemma encrypt_decrypt_roundtrip_witness :
  ∃ out,
    RandomCode.decrypt (apple_code 0) " an  eat apple" = Ok out
    ∧ RandomCode.encrypt (apple_code 0) out = "an eat apple".
Proof.
  apply (encrypt_decrypt_roundtrip apple_corpus None (world0 0) (apple_code 0)
           (run_corpus apple_corpus None 0).2 " an  eat apple").
  - vm_compute. reflexivity.
  - vm_compute. repeat constructor; eexists; reflexivity.
Defined.

(** The code of a known word is a word of the vocabulary. *)
Lemma encrypt_stays_in_vocabulary_witness :
  "an" ∈ RandomCode.vocab_words (apple_code 0)
  ∧ is_Some (RandomCode.map_word_to_code (apple_code 0) !! "an").
Proof.
  apply (encrypt_stays_in_vocabulary apple_corpus None (world0 0) (apple_code 0)
           (run_corpus apple_corpus None 0).2 "I saw"  "an").
  - vm_compute. reflexivity.
  - vm_compute. repeat constructor.
Defined.

(** Two sentences encrypted together and apart. *)
Lemma encrypt_concatenation_witness :
  split (RandomCode.encrypt (apple_code 0) ("I went" +:+ " " +:+ "to eat"))
  = split (RandomCode.encrypt (apple_code 0) "I went")
    ++ split (RandomCode.encrypt (apple_code 0) "to eat").
Proof.
  apply (encrypt_concatenation apple_corpus None (world0 0) (apple_code 0)
           (run_corpus apple_corpus None 0).2).
  vm_compute. reflexivity.
Defined.

(** The table of the corpus with ties: its keys and two of its counts. *)
Lemma frequency_table_exact_witness :
  (RandomCode.vocab tie_code).*1 = ["b"; "a"; "c"; "d"]
  ∧ Counter.getitem (RandomCode.vocab tie_code) "a" = 2
  ∧ Counter.getitem (RandomCode.vocab tie_code) "e" = 0.
Proof.
  pose proof (frequency_table_exact tie_corpus None (world0 0) tie_code
                (run_corpus tie_corpus None 0).2) as Hw.
  destruct Hw as [Hkeys Hcount]; [vm_compute; reflexivity|].
  split; [exact Hkeys|]. split; apply Hcount.
Defined.

(** The corpus with ties has four distinct tokens. *)
Lemma vocabulary_size_exact_witness :
  length (RandomCode.vocab_words tie_code) = 4 ∧ 0 < length (RandomCode.vocab_words tie_code).
Proof.
  apply (vocabulary_size_exact tie_corpus None (world0 0) tie_code
           (run_corpus tie_corpus None 0).2).
  vm_compute. reflexivity.
Defined.

(** The vocabulary of the corpus with ties. *)
Lemma vocabulary_well_formed_witness :
  NoDup (RandomCode.vocab_words tie_code)
  ∧ Forall (λ n, 0 < n) (RandomCode.vocab_counts tie_code).
Proof.
  pose proof (vocabulary_well_formed tie_corpus None (world0 0) tie_code
                (run_corpus tie_corpus None 0).2) as Hw.
  destruct Hw as (Hnd & _ & Hpos); [vm_compute; reflexivity|]. by split.
Defined.

(** In the corpus with ties [d], seen last and once, is still in the
    vocabulary. *)
Lemma vocabulary_most_frequent_witness :
  "d" ∈ RandomCode.vocab_words tie_code
  ∨ occurrences "d" (DatasetReader.iterate_word tie_corpus)
    ≤ occurrences "a" (DatasetReader.iterate_word tie_corpus).
Proof.
  apply (vocabulary_most_frequent tie_corpus None (world0 0) tie_code
           (run_corpus tie_corpus None 0).2).
  - vm_compute. reflexivity.
  - vm_compute. repeat constructor.
  - vm_compute. repeat constructor.
Defined.

(** The codes of the corpus of the driver. *)
Lemma codes_permute_vocabulary_witness :
  ∃ codeWords,
    codeWords ≡ₚ RandomCode.vocab_words (apple_code 0)
    ∧ Forall2 (λ word code,
                 RandomCode.map_word_to_code (apple_code 0) !! word = Some code)
        (RandomCode.vocab_words (apple_code 0)) codeWords.
Proof.
  apply (codes_permute_vocabulary apple_corpus None (world0 0) (apple_code 0)
           (run_corpus apple_corpus None 0).2).
  vm_compute. reflexivity.
Defined.

(** The corpus of one word. *)
Lemma single_word_vocabulary_witness :
  RandomCode.encrypt single_code " a  a " = "a a".
Proof.
  apply (single_word_vocabulary single_corpus None (world0 0) single_code
           (run_corpus single_corpus None 0).2).
  - vm_compute. reflexivity.
  - vm_compute. reflexivity.
  - vm_compute. repeat constructor; eexists; reflexivity.
Defined.

(** A word of the driver's corpus and its code. *)
Lemma dictionaries_hold_tokens_witness : is_token "I" ∧ is_token "an".
Proof.
  pose proof (dictionaries_hold_tokens apple_corpus None (world0 0) (apple_code 0)
                (run_corpus apple_corpus None 0).2) as Hw.
  destruct Hw as [Hw _]; [vm_compute; reflexivity|].
  apply (Hw "I" "an"). vm_compute. reflexivity.
Defined.

(** A code drawn on the instance of the driver. *)
Lemma generate_code_letters_witness :
  ∃ code,
    (RandomCode._generate_code (apple_code 0)).2 = Some code
    ∧ String.length code = 8
    ∧ all_lower code = true
    ∧ snapshot (RandomCode._generate_code (apple_code 0)).1 = snapshot (apple_code 0).
Proof.
  apply (generate_code_letters true (Some apple_corpus) None (world0 0) (apple_code 0)
           (run_corpus apple_corpus None 0).2).
  vm_compute. reflexivity.
Defined.

(** The driver on a corpus of two lines. *)
Lemma driver_output_witness :
  ∃ encrypted decrypted w',
    main driver_texts (world0 0) =
      ([print2 "Sentence: " "I went to eat an apple";
        print2 "Encrypted: " encrypted;
        print2 "Decrypted: " decrypted;
        "Should expect decrypted to be same as sentence";
        string_of_list_ascii (replicate 88 "~"%char);
        print2 "Sentence: " "I went to eat an apple";
        print2 "Encrypted: " encrypted;
        print2 "Decrypted: " decrypted;
        "Should be the save as previous output"], Ok (), w')
    ∧ (length (first_seen (split ("I went to eat an apple" +:+ String "010" "an apple a day")))
       ≤ RandomCode.MAX_VOCAB_SIZE →
       Forall (λ t, t ∈ split ("I went to eat an apple" +:+ String "010" "an apple a day"))
         (split "I went to eat an apple") →
       decrypted = "I went to eat an apple").
Proof.
  apply (driver_output driver_texts
           ("I went to eat an apple" +:+ String "010" "an apple a day") (world0 0)).
  - vm_compute. reflexivity.
  - vm_compute. discriminate.
Defined.
End runs.
